(** * The amortization engine of [MortgageCalculator.py], and around it

    The Python function [mortgage_calculator] is duck-typed over its numeric
    arguments: it runs unchanged on binary64 [float]s (the usage example at
    the bottom of the source) and on exact [fractions.Fraction]s.  The
    embedding is therefore written once, over the small interface [PyNum] of
    the operations the function applies to its numbers, and read in two
    arithmetics:

    - [Binary64]: IEEE 754 binary64, Python's [float], on Rocq's primitive
      floats, so that the code is evaluated as the interpreter runs it (an
      [int] amount is read as the float it converts to, which changes
      nothing below 2^53);
    - [Exact]: exact rational arithmetic on [Q], the behaviour on
      [Fraction] arguments and the reading of the specification over the
      real numbers.

    Properties of the control flow and of the schedule, line by line, are
    proved for every arithmetic; the amortization identities are proved in
    the exact one, and binary64 is where they are put to the test on
    concrete inputs.

    Beside the engine, the file embeds the two functions that present a
    schedule, and the retry loop of the HTTP helper:

    - [print_payment_schedule], as the list of the lines it prints;
    - [export_payment_schedule_to_csv], as the list of what it does to the
      file system, over the replies of the operating system;
    - [MockHttpRequest._make_request] of [MockHttpqrequest.py], as the
      requests it sends and the seconds it sleeps, over the replies of the
      server. *)

From Stdlib Require Import ZArith QArith Qabs Qpower Floats List String Bool.
From Stdlib Require Import Ascii DecimalString DecimalZ.
From Stdlib Require Import Lia Lqa.
Import ListNotations.

Set Warnings "-inexact-float".

(** * Part I: the program *)

(** ** Exceptions and results *)

(** The exceptions the function can raise: the built-in arithmetic ones and
    the [ValueError] of line 90. *)
Inductive exn : Type :=
| ZeroDivisionError
| OverflowError
| ValueError.

Inductive result (A : Type) : Type :=
| Ok (a : A)
| Raise (e : exn).
Arguments Ok {A} a.
Arguments Raise {A} e.

Definition bind {A B : Type} (c : result A) (k : A -> result B) : result B :=
  match c with
  | Ok a => k a
  | Raise e => Raise e
  end.

Notation "x <- c ;; k" := (bind c (fun x => k))
  (at level 61, c at next level, right associativity).

Definition map_result {A B : Type} (f : A -> B) (r : result A) : result B :=
  match r with
  | Ok a => Ok (f a)
  | Raise e => Raise e
  end.

(** ** Python numbers *)

(** The operations [mortgage_calculator] applies to its numeric arguments.
    [of_Z] is the implicit conversion of an [int] operand in mixed
    arithmetic, and [fits] tells whether that conversion succeeds ([float]
    raises [OverflowError] on an [int] beyond its range).  [is_zero x] is
    [x == 0], [true_div] is [/] on a non-zero divisor, [pow] is [**] with an
    [int] exponent, and [hundredth] is the literal [0.01] of line 54 as the
    comparison reads it. *)
Class PyNum (T : Type) : Type := {
  of_Z : Z -> T;
  fits : Z -> bool;
  add : T -> T -> T;
  sub : T -> T -> T;
  mul : T -> T -> T;
  true_div : T -> T -> T;
  is_zero : T -> bool;
  pow : T -> Z -> result T;
  abs : T -> T;
  ltb : T -> T -> bool;
  hundredth : T
}.

(** ** The function *)

Section Engine.

Context {T : Type} `{PyNum T}.

(** Conversion of an [int] operand where it can fail. *)
Definition of_int (n : Z) : result T :=
  if fits n then Ok (of_Z n) else Raise OverflowError.

(** [x / y]: true division raises [ZeroDivisionError] on a zero divisor. *)
Definition div (x y : T) : result T :=
  if is_zero y then Raise ZeroDivisionError else Ok (true_div x y).

(** One schedule line: the tuple
    [(month, payment, principal, interest, remaining_balance)]. *)
Record entry : Type := mkEntry {
  month : Z;
  payment : T;
  principal : T;
  interest : T;
  balance : T
}.

(** [range(a, b)]. *)
Fixpoint range_from (a : Z) (k : nat) : list Z :=
  match k with
  | O => []
  | S k' => a :: range_from (a + 1) k'
  end.

Definition range (a b : Z) : list Z := range_from a (Z.to_nat (b - a)).

(** The monthly rate of line 29, the divisor 12 being non-zero. *)
Definition monthly_rate (annual_interest_rate : T) : T :=
  true_div annual_interest_rate (of_Z 12).

(** *** Equal installment, lines 36-60 *)

(** Lines 36-40: the fixed monthly payment.  The source writes the power
    [(1 + monthly_interest_rate) ** total_months] twice; both occurrences
    evaluate to the same value [p]. *)
Definition installment_payment (loan_amount monthly_interest_rate : T)
    (total_months : Z) : result T :=
  if is_zero monthly_interest_rate then
    m <- of_int total_months ;;
    div loan_amount m
  else
    p <- pow (add (of_Z 1) monthly_interest_rate) total_months ;;
    div (mul (mul loan_amount monthly_interest_rate) p) (sub p (of_Z 1)).

(** Lines 48-58 up to the [append]: from the balance before the month to the
    line of the month and the balance after it. *)
Definition installment_month (total_months : Z)
    (monthly_payment monthly_interest_rate : T)
    (remaining_balance : T) (month : Z) : entry * T :=
  let interest_payment := mul remaining_balance monthly_interest_rate in
  let principal_payment := sub monthly_payment interest_payment in
  let remaining_balance := sub remaining_balance principal_payment in
  let '(principal_payment, remaining_balance) :=
    if (month =? total_months)%Z then
      if ltb (abs remaining_balance) hundredth then
        (add principal_payment remaining_balance, of_Z 0)
      else (principal_payment, remaining_balance)
    else (principal_payment, remaining_balance) in
  (mkEntry month monthly_payment principal_payment interest_payment
     remaining_balance,
   remaining_balance).

(** *** Equal principal, lines 65-87 *)

(** The variables the loop of lines 73-85 updates, [monthly_details] apart. *)
Record principal_state : Type := mkState {
  st_balance : T;
  st_first : option T;
  st_last : option T;
  st_total : T
}.

(** Lines 74-85 up to the [append]. *)
Definition principal_month (total_months : Z)
    (monthly_principal monthly_interest_rate : T)
    (st : principal_state) (month : Z) : entry * principal_state :=
  let interest_payment := mul (st_balance st) monthly_interest_rate in
  let monthly_payment := add monthly_principal interest_payment in
  let remaining_balance := sub (st_balance st) monthly_principal in
  let total_payment := add (st_total st) monthly_payment in
  let first_month_payment :=
    if (month =? 1)%Z then Some monthly_payment else st_first st in
  let last_month_payment :=
    if (month =? total_months)%Z then Some monthly_payment else st_last st in
  (mkEntry month monthly_payment monthly_principal interest_payment
     remaining_balance,
   mkState remaining_balance first_month_payment last_month_payment
     total_payment).

(** *** The whole function, lines 5-90 *)

Section ListObject.

(** [monthly_details] is a list object: the function creates it (line 32),
    appends to it (lines 58 and 85) and returns it.  The embedding names
    these two operations, so that the same text reads as a computation on
    Rocq lists and as one on a heap of Python objects. *)
Context {L : Type} (new_list : L) (list_append : L -> entry -> L).

(** What the function returns: a 3-tuple under ["equal_installment"], a
    4-tuple under ["equal_principal"] whose first two components stay [None]
    when the loop body never runs. *)
Inductive summary : Type :=
| Installment (monthly_payment total_payment : T) (monthly_details : L)
| Principal (first_month_payment last_month_payment : option T)
            (total_payment : T) (monthly_details : L).

Definition details_of (s : summary) : L :=
  match s with
  | Installment _ _ details => details
  | Principal _ _ _ details => details
  end.

(** Lines 46-58: the loop, on the running balance and [monthly_details]. *)
Definition installment_loop (total_months : Z)
    (monthly_payment monthly_interest_rate : T)
    (st : T * L) (months : list Z) : T * L :=
  fold_left
    (fun st month =>
       let '(e, remaining_balance) :=
         installment_month total_months monthly_payment monthly_interest_rate
           (fst st) month in
       (remaining_balance, list_append (snd st) e))
    months st.

(** Lines 73-85: the loop. *)
Definition principal_loop (total_months : Z)
    (monthly_principal monthly_interest_rate : T)
    (st : principal_state * L) (months : list Z) : principal_state * L :=
  fold_left
    (fun st month =>
       let '(e, st') :=
         principal_month total_months monthly_principal monthly_interest_rate
           (fst st) month in
       (st', list_append (snd st) e))
    months st.

Definition mortgage_calculator_on (loan_amount annual_interest_rate : T)
    (loan_years : Z) (payment_method : string) : result summary :=
  monthly_interest_rate <- div annual_interest_rate (of_Z 12) ;;
  let total_months := (loan_years * 12)%Z in
  let monthly_details := new_list in
  if (payment_method =? "equal_installment")%string then
    monthly_payment <-
      installment_payment loan_amount monthly_interest_rate total_months ;;
    m <- of_int total_months ;;
    let total_payment := mul monthly_payment m in
    let '(_, monthly_details) :=
      installment_loop total_months monthly_payment monthly_interest_rate
        (loan_amount, monthly_details) (range 1 (total_months + 1)) in
    Ok (Installment monthly_payment total_payment monthly_details)
  else if (payment_method =? "equal_principal")%string then
    m <- of_int total_months ;;
    monthly_principal <- div loan_amount m ;;
    let '(st, monthly_details) :=
      principal_loop total_months monthly_principal monthly_interest_rate
        (mkState loan_amount None None (of_Z 0), monthly_details)
        (range 1 (total_months + 1)) in
    Ok (Principal (st_first st) (st_last st) (st_total st) monthly_details)
  else
    Raise ValueError.

End ListObject.

(** The function on values: [monthly_details] is the list of its lines. *)
Definition mortgage_calculator :
    T -> T -> Z -> string -> result (@summary (list entry)) :=
  mortgage_calculator_on [] (fun l e => l ++ [e]).

End Engine.

Arguments entry T : clear implicits.
Arguments summary T L : clear implicits.
Arguments principal_state T : clear implicits.

(** ** Python's [float]: IEEE 754 binary64 *)

Module Binary64.

Local Open Scope float_scope.

(** [float(n)] for an [int]: rounded to nearest, ties to even. *)
Definition float_of_Z (n : Z) : float :=
  SF2Prim (binary_normalize prec emax n 0 false).

(** The conversion raises [OverflowError] where rounding leaves the range. *)
Definition float_fits (n : Z) : bool :=
  negb (PrimFloat.is_infinity (float_of_Z n)).

(** The integer a finite integral float stands for. *)
Definition Z_of_float (x : float) : Z :=
  match Prim2SF x with
  | S754_finite s m e =>
      let v := if (0 <=? e)%Z then (Zpos m * 2 ^ e)%Z
               else (Zpos m / 2 ^ (- e))%Z in
      if s then (- v)%Z else v
  | _ => 0%Z
  end.

(** [iv ** n] for a [float] base and an [int] exponent, after the
    interpreter's [float_pow]: the exponent is converted first, the special
    cases (a zero exponent, a base that is not a number, infinite, zero or
    one) are decided without the C library, and an infinite result of [pow]
    is an [OverflowError].

    The C library's [pow] is the parameter [libm_pow]: the language does not
    fix its last bit, and the libraries in use differ by one unit in the
    last place on some arguments.  The interpreter calls it on a finite
    positive base other than 1 and a non-zero integral exponent only. *)
Definition float_pow (libm_pow : float -> float -> float)
    (iv : float) (n : Z) : result float :=
  if negb (float_fits n) then Raise OverflowError else
  let iw := Z_of_float (float_of_Z n) in
  if (iw =? 0)%Z then Ok 1
  else if PrimFloat.is_nan iv then Ok iv
  else if PrimFloat.is_infinity iv then
    Ok (if (0 <? iw)%Z then
          if Z.odd iw then iv else PrimFloat.abs iv
        else
          if Z.odd iw && (iv <? 0) then neg_zero else 0)
  else if iv =? 0 then
    if (iw <? 0)%Z then Raise ZeroDivisionError
    else Ok (if Z.odd iw then iv else 0)
  else
    let negate_result := (iv <? 0) && Z.odd iw in
    let iv := PrimFloat.abs iv in
    if iv =? 1 then Ok (if negate_result then -1 else 1)
    else
      let ix := libm_pow iv (float_of_Z n) in
      if PrimFloat.is_infinity ix then Raise OverflowError
      else Ok (if negate_result then - ix else ix).

(** Python's [float] on a platform whose C library computes [pow] as
    [libm_pow].  Every theorem stated for all arithmetics applies to it,
    whatever [libm_pow] is. *)
Definition float_num_with (libm_pow : float -> float -> float)
    : PyNum float := {|
  of_Z := float_of_Z;
  fits := float_fits;
  add := PrimFloat.add;
  sub := PrimFloat.sub;
  mul := PrimFloat.mul;
  true_div := PrimFloat.div;
  is_zero := fun x => x =? 0;
  pow := float_pow libm_pow;
  abs := PrimFloat.abs;
  ltb := PrimFloat.ltb;
  hundredth := 0.01
|}.

(** One such library, used to run the code on sample inputs: a [pow] that
    rounds the exact power correctly (to nearest, ties to even).  It is not
    the [pow] of every platform: glibc's result for
    [1.0052083333333333 ** 240] is one unit in the last place below it.
    Where a sample run below goes through [rounded_pow], the figures it
    shows are those of this library. *)
Definition rounded_pow (x y : float) : float :=
  let k := Z_of_float y in
  match Prim2SF x with
  | S754_finite _ m e =>
      if (0 <? k)%Z then
        SF2Prim (binary_normalize prec emax
                   (Zpos (Pos.pow m (Z.to_pos k))) (e * k) false)
      else
        SF2Prim (SFdiv prec emax (S754_finite false 1 0)
                   (S754_finite false (Pos.pow m (Z.to_pos (- k)))
                      (e * - k)))
  | _ => x
  end.

#[export] Instance float_num : PyNum float := float_num_with rounded_pow.

(** Month over month the amounts never go up. *)
Fixpoint non_increasingb (l : list float) : bool :=
  match l with
  | x :: (y :: _) as tl => (y <=? x) && non_increasingb tl
  | _ => true
  end.


(** The call on floats, over a given C library. *)
Definition float_call_with (libm_pow : float -> float -> float) :
    float -> float -> Z -> string -> result (summary float (list (entry float)))
  := @mortgage_calculator float (float_num_with libm_pow).

(** The call on floats. *)
Definition float_call :
    float -> float -> Z -> string -> result (summary float (list (entry float)))
  := mortgage_calculator.

End Binary64.

(** ** Exact rational arithmetic *)

Module Exact.

(** [x ** n] on fractions: exact, and a zero base with a negative exponent
    raises [ZeroDivisionError]. *)
Definition Q_pow (x : Q) (n : Z) : result Q :=
  if Qeq_bool x 0 && (n <? 0)%Z then Raise ZeroDivisionError
  else Ok (Qpower x n).

(** The literal [0.01] is a binary64 constant; a fraction is compared with
    its exact value, 5764607523034235 / 2^59. *)
Definition Q_hundredth : Q := 5764607523034235 # 576460752303423488.

#[export] Instance Q_num : PyNum Q := {|
  of_Z := inject_Z;
  fits := fun _ => true;
  add := Qplus;
  sub := Qminus;
  mul := Qmult;
  true_div := Qdiv;
  is_zero := fun x => Qeq_bool x 0;
  pow := Q_pow;
  abs := Qabs;
  ltb := fun x y => negb (Qle_bool y x);
  hundredth := Q_hundredth
|}.

(** [sum(e.principal for e in details)], left to right from 0. *)
Definition sum_principal (details : list (entry Q)) : Q :=
  fold_left (fun acc e => acc + principal e) details 0.



End Exact.

Import Binary64 Exact.

(** ** The list object on a heap *)

Section Heap.

Context {T : Type} `{PyNum T}.

(** A heap of list objects: [cell h l] is the content of the list at address
    [l], and the addresses below [next h] are the allocated ones. *)
Record heap : Type := mkHeap {
  next : nat;
  cell : nat -> list (entry T)
}.

(** [[]]: a new empty list at a fresh address. *)
Definition alloc (h : heap) : nat * heap :=
  (next h,
   mkHeap (S (next h))
     (fun l => if (l =? next h)%nat then [] else cell h l)).

(** [l.append(e)]: the list at [l] is updated in place. *)
Definition append_at (lh : nat * heap) (e : entry T) : nat * heap :=
  let '(l, h) := lh in
  (l, mkHeap (next h)
        (fun l' => if (l' =? l)%nat then cell h l' ++ [e] else cell h l')).

(** A call made in the heap [h]: the tuple returned carries the address of
    [monthly_details] and the heap the call leaves.  Every exception is
    raised before the first [append], on a heap that differs from [h] by the
    new empty list only. *)
Definition mortgage_calculator_in (h : heap) :
    T -> T -> Z -> string -> result (summary T (nat * heap)) :=
  mortgage_calculator_on (alloc h) append_at.

(** The value a returned tuple denotes: the list read at its address. *)
Definition contents (s : summary T (nat * heap))
    : summary T (list (entry T)) :=
  match s with
  | Installment mp total (l, h) => Installment mp total (cell h l)
  | Principal first last total (l, h) =>
      Principal first last total (cell h l)
  end.

Definition heap_of (s : summary T (nat * heap)) : heap :=
  snd (details_of s).

(** Every object of [h] is still there, unchanged, in [h']. *)
Definition untouched (h h' : heap) : Prop :=
  (next h <= next h')%nat /\
  forall l, (l < next h)%nat -> cell h' l = cell h l.

(** [h'] is [h] with the list at [l] extended by [es]. *)
Definition extended (l : nat) (es : list (entry T)) (h h' : heap) : Prop :=
  next h' = next h /\
  cell h' l = cell h l ++ es /\
  forall l', l' <> l -> cell h' l' = cell h l'.

End Heap.

Arguments heap T : clear implicits.

(** ** The schedule in closed form *)

Section Schedule.

Context {T : Type} `{PyNum T}.

(** The lines the installment loop appends, from the balance [b] on. *)
Fixpoint installment_entries (total_months : Z) (mp r b : T)
    (months : list Z) : list (entry T) :=
  match months with
  | [] => []
  | m :: rest =>
      let '(e, b') := installment_month total_months mp r b m in
      e :: installment_entries total_months mp r b' rest
  end.

(** The balance the installment loop ends with. *)
Fixpoint installment_final (total_months : Z) (mp r b : T)
    (months : list Z) : T :=
  match months with
  | [] => b
  | m :: rest =>
      installment_final total_months mp r
        (snd (installment_month total_months mp r b m)) rest
  end.

(** The lines the equal-principal loop appends, from the balance [b] on. *)
Fixpoint principal_entries (mp r b : T) (months : list Z)
    : list (entry T) :=
  match months with
  | [] => []
  | m :: rest =>
      mkEntry m (add mp (mul b r)) mp (mul b r) (sub b mp)
      :: principal_entries mp r (sub b mp) rest
  end.

(** The balance after the successive subtractions of [mp], one a month. *)
Fixpoint principal_final (mp b : T) (months : list Z) : T :=
  match months with
  | [] => b
  | _ :: rest => principal_final mp (sub b mp) rest
  end.

(** The balance after one month, before any end-of-loan adjustment:
    lines 48-50. *)
Definition next_balance (mp r b : T) : T := sub b (sub mp (mul b r)).

(** The balance after [k] months without adjustment. *)
Fixpoint balance_after (mp r b : T) (k : nat) : T :=
  match k with
  | O => b
  | S k' => balance_after mp r (next_balance mp r b) k'
  end.

(** Lines 53-56 applied to the balance [v] reached in the final month. *)
Definition fold_residual (v : T) : T :=
  if ltb (abs v) hundredth then of_Z 0 else v.

(** The last line of a schedule, when there is one. *)
Definition last_entry (details : list (entry T)) : option (entry T) :=
  match rev details with
  | e :: _ => Some e
  | [] => None
  end.

(** The balance each line starts from: the amount lent for the first line,
    and for every other line the balance that the line before it shows. *)
Definition opening_balances (loan_amount : T) (details : list (entry T))
    : list T :=
  removelast (loan_amount :: map balance details).

(** A schedule of [n] lines numbered 1, 2, ..., [n]. *)
Definition numbered (n : Z) (details : list (entry T)) : Prop :=
  List.length details = Z.to_nat n /\
  forall i, (i < List.length details)%nat ->
    nth_error (map month details) i = Some (Z.of_nat i + 1)%Z.

End Schedule.

(** ** What both arithmetics agree on *)

(** The few facts about small constants that the control flow of
    [mortgage_calculator] relies on.  They hold for [float] and for
    fractions alike. *)
Class PyNumLaws (T : Type) `{PyNum T} : Prop := {
  twelve_not_zero : is_zero (of_Z 12) = false;
  zero_is_zero : is_zero (of_Z 0) = true;
  zero_fits : fits 0 = true;
  pow_zero : forall x : T, pow x 0 = Ok (of_Z 1);
  one_sub_one : is_zero (sub (of_Z 1) (of_Z 1)) = true
}.

(** ** Text output *)

Section Text.

Local Open Scope string_scope.

(** ["\n"]. *)
Definition LF : ascii := ascii_of_nat 10.

(** [c * n]. *)
Fixpoint repeat_char (c : ascii) (n : nat) : string :=
  match n with
  | O => ""
  | S n' => String c (repeat_char c n')
  end.

(** The format specification [<width]: left-aligned, padded with spaces up
    to [width] characters, never truncated. *)
Definition ljust (width : nat) (s : string) : string :=
  s ++ repeat_char " " (width - String.length s).

(** [str(n)] for an [int], which is also the format [d]. *)
Definition str_of_int (n : Z) : string := NilZero.string_of_int (Z.to_int n).

(** The digit [0 <= d < 10] as a character. *)
Definition digit_char (d : Z) : ascii := ascii_of_nat (48 + Z.to_nat d).

(** A number [0 <= n < 100] on two digits. *)
Definition two_digits (n : Z) : string :=
  String (digit_char (n / 10)) (String (digit_char (n mod 10)) "").

(** The hundredths nearest to [m * 2^e], ties to even: the digits that the
    format [.2f] prints are those of the exact binary value, correctly
    rounded. *)
Definition hundredths (m : positive) (e : Z) : Z :=
  if (0 <=? e)%Z then Zpos m * 2 ^ e * 100
  else
    let d := (2 ^ (- e))%Z in
    let n := (Zpos m * 100)%Z in
    let q := (n / d)%Z in
    let r := (n mod d)%Z in
    match (2 * r ?= d)%Z with
    | Lt => q
    | Gt => q + 1
    | Eq => if Z.even q then q else q + 1
    end.

(** The format [.2f] of a [float]. *)
Definition fixed2 (x : float) : string :=
  match Prim2SF x with
  | S754_nan => "nan"
  | S754_infinity s => if s then "-inf" else "inf"
  | S754_zero s => (if s then "-" else "") ++ "0.00"
  | S754_finite s m e =>
      let h := hundredths m e in
      (if s then "-" else "") ++ str_of_int (h / 100) ++ "." ++
      two_digits (h mod 100)
  end.

End Text.

(** ** [print_payment_schedule], lines 92-122 *)

Section Report.

Local Open Scope string_scope.

(** What the standard output receives: one string for each [print]. *)
Definition stdout : Type := list string.

(** [l[i]] on a list: a negative index counts from the end, and an index
    out of range raises [IndexError] (here [None]). *)
Definition getitem {A : Type} (l : list A) (i : Z) : option A :=
  let n := Z.of_nat (List.length l) in
  if ((0 <=? i) && (i <? n))%Z then nth_error l (Z.to_nat i)
  else if ((- n <=? i) && (i <? 0))%Z then nth_error l (Z.to_nat (n + i))
  else None.

(** Lines 110 and 120: one line of the table. *)
Definition row_text (e : entry float) : string :=
  ljust 6 (str_of_int (month e)) ++ " " ++
  ljust 12 (fixed2 (payment e)) ++ " " ++
  ljust 12 (fixed2 (principal e)) ++ " " ++
  ljust 12 (fixed2 (interest e)) ++ " " ++
  ljust 15 (fixed2 (balance e)).

(** Line 102: the column titles. *)
Definition header_text : string :=
  ljust 6 "Month" ++ " " ++ ljust 12 "Payment" ++ " " ++
  ljust 12 "Principal" ++ " " ++ ljust 12 "Interest" ++ " " ++
  ljust 15 "Remaining Balance".

(** ["-" * 80]. *)
Definition rule_text : string := repeat_char "-" 80.

(** Lines 108-110 and 118-120: the rows at the indices [indices] are printed
    in turn; the loop stops at the first index that [monthly_details] does
    not have. *)
Fixpoint print_rows (monthly_details : list (entry float))
    (indices : list Z) (out : stdout) : stdout * bool :=
  match indices with
  | [] => (out, true)
  | i :: rest =>
      match getitem monthly_details i with
      | Some e => print_rows monthly_details rest (out ++ [row_text e])%list
      | None => (out, false)
      end
  end.

(** Lines 92-122.  The result is what was printed, and whether the call
    returned ([true]) or raised [IndexError] ([false]). *)
Definition print_payment_schedule (monthly_details : list (entry float))
    (num_months_to_show : Z) : stdout * bool :=
  let out :=
    [String LF "Monthly Payment Schedule:"; rule_text; header_text;
     rule_text] in
  let total_months := Z.of_nat (List.length monthly_details) in
  let '(out, ok) :=
    print_rows monthly_details
      (range 0 (Z.min num_months_to_show total_months)) out in
  if negb ok then (out, false) else
  let out :=
    if (2 * num_months_to_show <? total_months)%Z then (out ++ ["..."])%list
    else out in
  let '(out, ok) :=
    if (num_months_to_show <? total_months)%Z then
      print_rows monthly_details
        (range (Z.max num_months_to_show (total_months - num_months_to_show))
           total_months) out
    else (out, true) in
  if negb ok then (out, false) else
  ((out ++ [rule_text])%list, true).

(** The four lines that open the table, lines 100-103. *)
Definition table_head : stdout :=
  [String LF "Monthly Payment Schedule:"; rule_text; header_text; rule_text].

End Report.

(** ** [export_payment_schedule_to_csv], lines 124-147 *)

Section CsvExport.

Local Open Scope string_scope.

(** ["\r"] and the double quote. *)
Definition CR : ascii := ascii_of_nat 13.
Definition DQUOTE : ascii := ascii_of_nat 34.

(** *** The CSV writer *)

(** [csv.writer] in its default dialect: a field is quoted when it holds a
    comma, a double quote, a carriage return or a line feed, and a double
    quote inside it is doubled. *)
Definition is_special (c : ascii) : bool :=
  Ascii.eqb c "," || Ascii.eqb c DQUOTE || Ascii.eqb c CR || Ascii.eqb c LF.

Fixpoint needs_quote (s : string) : bool :=
  match s with
  | EmptyString => false
  | String c s' => is_special c || needs_quote s'
  end.

Fixpoint double_quotes (s : string) : string :=
  match s with
  | EmptyString => EmptyString
  | String c s' =>
      if Ascii.eqb c DQUOTE then String c (String c (double_quotes s'))
      else String c (double_quotes s')
  end.

Definition csv_field (s : string) : string :=
  if needs_quote s then
    String DQUOTE (double_quotes s ++ String DQUOTE "")
  else s.

(** [writerow]: the fields joined by commas and ended by ["\r\n"]; a row of
    one empty field is written as two double quotes. *)
Definition writerow (fields : list string) : string :=
  match fields with
  | [EmptyString] => String DQUOTE (String DQUOTE (String CR (String LF "")))
  | _ => String.concat "," (map csv_field fields) ++ String CR (String LF "")
  end.

(** Line 140 and lines 144-145: the fields of the header and of a row. *)
Definition csv_header : list string :=
  ["Month"; "Payment"; "Principal"; "Interest"; "Remaining Balance"].

Definition csv_fields (e : entry float) : list string :=
  [str_of_int (month e); fixed2 (payment e); fixed2 (principal e);
   fixed2 (interest e); fixed2 (balance e)].

(** *** [os.path.dirname], for POSIX paths *)

(** [p.rfind("/") + 1]: the length of the part of [p] up to its last
    slash, 0 when it has none. *)
Fixpoint after_last_sep (p : string) : nat :=
  match p with
  | EmptyString => O
  | String c p' =>
      match after_last_sep p' with
      | O => if Ascii.eqb c "/" then 1%nat else O
      | S k => S (S k)
      end
  end.

Fixpoint all_sep (s : string) : bool :=
  match s with
  | EmptyString => true
  | String c s' => Ascii.eqb c "/" && all_sep s'
  end.

(** [s.rstrip("/")]. *)
Fixpoint rstrip_sep (s : string) : string :=
  match s with
  | EmptyString => EmptyString
  | String c s' =>
      match rstrip_sep s' with
      | EmptyString => if Ascii.eqb c "/" then EmptyString else String c ""
      | t => String c t
      end
  end.

Definition dirname (p : string) : string :=
  let i := after_last_sep p in
  let head := substring 0 i p in
  if negb (String.eqb head "") && negb (all_sep head) then rstrip_sep head
  else head.

(** *** The export *)

(** The errors of the operating system that the export can meet. *)
Inductive os_error : Type :=
| FileNotFoundError
| OtherOSError (errno : Z).

(** What the export does to the world, in order. *)
Inductive os_event : Type :=
| Makedirs (path : string)
| Open (path : string)
| Write (text : string)
| Close
| Print (text : string).

(** The operating system, as far as the export depends on it: whether
    [os.makedirs(path, exist_ok=True)] and [open(path, "w")] fail. *)
Record os_model : Type := mkOS {
  makedirs_fails : string -> option os_error;
  open_fails : string -> option os_error
}.

Definition export_message (payment_method filepath : string) : string :=
  String LF ("Payment schedule for " ++ payment_method ++ " exported to " ++
             filepath).

(** The events of the call, and the error it raises if any. *)
Definition export_payment_schedule_to_csv (os : os_model)
    (monthly_details : list (entry float)) (filepath payment_method : string)
    : list os_event * option os_error :=
  let dir := dirname filepath in
  match makedirs_fails os dir with
  | Some err => ([Makedirs dir], Some err)
  | None =>
      match open_fails os filepath with
      | Some err => ([Makedirs dir; Open filepath], Some err)
      | None =>
          (([Makedirs dir; Open filepath] ++
            Write (writerow csv_header) ::
            map (fun e => Write (writerow (csv_fields e))) monthly_details ++
            [Close; Print (export_message payment_method filepath)])%list,
           None)
      end
  end.

(** The text that a sequence of events leaves in the file. *)
Fixpoint written (events : list os_event) : string :=
  match events with
  | [] => EmptyString
  | Write text :: rest => text ++ written rest
  | _ :: rest => written rest
  end.

(** Two operating systems to run the export on: one on which every
    directory can be made and every file opened, and one on which the
    directory [""] cannot be made. *)
Definition willing_os : os_model := mkOS (fun _ => None) (fun _ => None).

Definition posix_os : os_model :=
  mkOS (fun path => if String.eqb path "" then Some FileNotFoundError
                    else None)
       (fun _ => None).

(** *** Reading back what was written *)

(** [c in s]. *)
Fixpoint has_char (c : ascii) (s : string) : bool :=
  match s with
  | EmptyString => false
  | String a s' => Ascii.eqb a c || has_char c s'
  end.

(** [s.split(sep)] for a separator of one character. *)
Fixpoint split_on (sep : ascii) (s : string) : list string :=
  match s with
  | EmptyString => [EmptyString]
  | String c s' =>
      if Ascii.eqb c sep then EmptyString :: split_on sep s'
      else
        match split_on sep s' with
        | h :: t => String c h :: t
        | [] => [String c EmptyString]
        end
  end.

(** A line without the carriage return that ends it. *)
Fixpoint strip_cr (s : string) : string :=
  match s with
  | EmptyString => EmptyString
  | String c EmptyString => if Ascii.eqb c CR then EmptyString else s
  | String c s' => String c (strip_cr s')
  end.

(** A reader of unquoted CSV text: the lines that ["\r\n"] ends, each split
    at its commas. *)
Definition csv_read (text : string) : list (list string) :=
  map (fun line => split_on "," (strip_cr line))
      (removelast (split_on LF text)).

End CsvExport.

(** ** [MockHttpRequest._make_request], MockHttpqrequest.py lines 92-157 *)

Module Http.

Local Open Scope Z_scope.

(** What one call of [self.session.request] comes to: a response with its
    status code, a [RequestException] (a connection error, a timeout, ...),
    which may carry a response, or an exception of another kind. *)
Inductive reply : Type :=
| Response (status_code : Z)
| Failure (response_status : option Z)
| Crash.

(** The exceptions of [requests] that the loop catches: the [HTTPError] of
    [raise_for_status], and the one that [session.request] raised. *)
Inductive request_exception : Type :=
| HTTPError (status_code : Z)
| RequestError (response_status : option Z).

(** How a call of [_make_request] ends: it returns a response, raises an
    exception that it caught, lets another exception through, or raises
    the [TypeError] of [raise None].  [OutOfFuel] is the loop cut short,
    which never happens to the call. *)
Inductive outcome : Type :=
| Returned (status_code : Z)
| Raised (e : request_exception)
| RaisedOther
| RaisedTypeError
| OutOfFuel.

(** What the call does meanwhile: the requests it sends, numbered as the
    log numbers them, and the seconds it sleeps. *)
Inductive event : Type :=
| Request (attempt : Z)
| Sleep (seconds : Z).

(** [response.raise_for_status()]: an [HTTPError] for a 4xx or 5xx
    status. *)
Definition raise_for_status (status_code : Z) : option request_exception :=
  if (400 <=? status_code) && (status_code <? 600)
  then Some (HTTPError status_code) else None.

(** [e.response.status_code], when [e] has a response. *)
Definition response_status_of (e : request_exception) : option Z :=
  match e with
  | HTTPError status_code => Some status_code
  | RequestError response_status => response_status
  end.

(** Lines 144-145: a client error other than 429. *)
Definition is_client_error (e : request_exception) : bool :=
  match response_status_of e with
  | Some status_code =>
      (400 <=? status_code) && (status_code <? 500) &&
      negb (status_code =? 429)
  | None => false
  end.

(** Lines 139-153: the exception [e] was caught at the attempt [attempt];
    the result says whether the loop goes on, and how the log stands. *)
Definition handle (max_retries attempt : Z) (e : request_exception)
    (log : list event) : bool * list event :=
  if is_client_error e then (false, log)
  else (true,
        if attempt <? max_retries then log ++ [Sleep (2 ^ attempt)]
        else log).

(** Lines 125-157: the loop and what follows it.  [server k] is the reply
    to the [k]-th request.  [raise last_exception] with [last_exception]
    still [None] is a [TypeError]. *)
Fixpoint retry_loop (max_retries : Z) (server : Z -> reply) (fuel : nat)
    (attempt : Z) (last_exception : option request_exception)
    (log : list event) : outcome * list event :=
  if attempt <? max_retries then
    match fuel with
    | O => (OutOfFuel, log)
    | S fuel' =>
        let attempt := attempt + 1 in
        let log := log ++ [Request attempt] in
        let caught e :=
          let '(again, log) := handle max_retries attempt e log in
          if again
          then retry_loop max_retries server fuel' attempt (Some e) log
          else (Raised e, log) in
        match server attempt with
        | Response status_code =>
            match raise_for_status status_code with
            | None => (Returned status_code, log)
            | Some e => caught e
            end
        | Failure response_status => caught (RequestError response_status)
        | Crash => (RaisedOther, log)
        end
    end
  else
    (match last_exception with
     | Some e => Raised e
     | None => RaisedTypeError
     end, log).

(** The call, for an object whose [max_retries] is [max_retries]: the loop
    runs [max_retries] times at most. *)
Definition _make_request (max_retries : Z) (server : Z -> reply)
    : outcome * list event :=
  retry_loop max_retries server (Z.to_nat max_retries) 0 None [].



(** The requests sent in a log. *)
Fixpoint requests_sent (log : list event) : Z :=
  match log with
  | [] => 0
  | Request _ :: rest => 1 + requests_sent rest
  | Sleep _ :: rest => requests_sent rest
  end.


(** The seconds slept in a log. *)
Fixpoint seconds_slept (log : list event) : Z :=
  match log with
  | [] => 0
  | Sleep s :: rest => s + seconds_slept rest
  | Request _ :: rest => seconds_slept rest
  end.

End Http.

(** * Part II: properties *)

#[export] Instance float_laws : PyNumLaws float.
Proof. split; try reflexivity. Qed.

(** They hold on binary64 whatever the C library's [pow]. *)
Lemma float_laws_with (libm_pow : float -> float -> float) :
  @PyNumLaws float (float_num_with libm_pow).
Proof. split; try reflexivity. Qed.

#[export] Instance Q_laws : PyNumLaws Q.
Proof.
  split; try reflexivity.
  intros x. simpl. unfold Exact.Q_pow.
  now rewrite andb_false_r.
Qed.

(** ** The loops and their closed forms *)

Section LoopFacts.

Context {T : Type} `{PyNum T}.

Lemma installment_loop_unfold (n : Z) (mp r : T) (months : list Z) :
  forall (b : T) (ds : list (entry T)),
    installment_loop (fun l e => l ++ [e]) n mp r (b, ds) months =
    (installment_final n mp r b months,
     ds ++ installment_entries n mp r b months).
Proof.
  unfold installment_loop.
  induction months as [|m rest IH]; intros b ds; simpl.
  - now rewrite app_nil_r.
  - destruct (installment_month n mp r b m) as [e b'] eqn:E; simpl.
    rewrite IH, <- app_assoc. reflexivity.
Qed.

Lemma principal_loop_details (n : Z) (mp r : T) (months : list Z) :
  forall (st : principal_state T) (ds : list (entry T)),
    snd (principal_loop (fun l e => l ++ [e]) n mp r (st, ds) months) =
    ds ++ principal_entries mp r (st_balance st) months.
Proof.
  unfold principal_loop.
  induction months as [|m rest IH]; intros st ds; simpl.
  - now rewrite app_nil_r.
  - rewrite IH. simpl. rewrite <- app_assoc. reflexivity.
Qed.

Lemma range_from_length (k : nat) :
  forall a, List.length (range_from a k) = k.
Proof. induction k; intros a; simpl; [reflexivity | now rewrite IHk]. Qed.

Lemma range_from_nth (k : nat) :
  forall a i, (i < k)%nat ->
    nth_error (range_from a k) i = Some (a + Z.of_nat i)%Z.
Proof.
  induction k as [|k IH]; intros a i Hi; [lia|].
  destruct i as [|i]; simpl.
  - f_equal; lia.
  - rewrite IH by lia. f_equal; lia.
Qed.

Lemma range_months (n : Z) : range 1 (n + 1) = range_from 1 (Z.to_nat n).
Proof. unfold range. f_equal. lia. Qed.

Lemma installment_entries_months (n : Z) (mp r : T) (months : list Z) :
  forall b, map month (installment_entries n mp r b months) = months.
Proof.
  induction months as [|m rest IH]; intros b; simpl; [reflexivity|].
  unfold installment_month at 1.
  destruct (m =? n)%Z; [destruct (ltb _ _)|]; simpl; now rewrite IH.
Qed.

Lemma principal_entries_months (mp r : T) (months : list Z) :
  forall b, map month (principal_entries mp r b months) = months.
Proof.
  induction months as [|m rest IH]; intros b; simpl; [reflexivity|].
  now rewrite IH.
Qed.

Lemma installment_entries_payment (n : Z) (mp r : T) (months : list Z) :
  forall b, Forall (fun e => payment e = mp)
                   (installment_entries n mp r b months).
Proof.
  induction months as [|m rest IH]; intros b; simpl; [constructor|].
  unfold installment_month at 1.
  destruct (m =? n)%Z; [destruct (ltb _ _)|]; simpl;
    (constructor; [reflexivity | apply IH]).
Qed.

Lemma principal_entries_principal (mp r : T) (months : list Z) :
  forall b, Forall (fun e => principal e = mp)
                   (principal_entries mp r b months).
Proof.
  induction months as [|m rest IH]; intros b; simpl; constructor;
    [reflexivity | apply IH].
Qed.

Lemma numbered_of_months (n : Z) (details : list (entry T)) :
  map month details = range 1 (n + 1) -> numbered n details.
Proof.
  intros Hm.
  assert (Hlen : List.length details = Z.to_nat n).
  { rewrite <- (length_map month), Hm. unfold range.
    rewrite range_from_length. f_equal; lia. }
  split; [exact Hlen|].
  intros i Hi. rewrite Hm. unfold range.
  rewrite range_from_nth by lia. f_equal; lia.
Qed.

Lemma installment_entries_not_nil (n : Z) (mp r b : T) (k : nat) (a : Z) :
  installment_entries n mp r b (range_from a (S k)) <> [].
Proof.
  cbn [range_from installment_entries].
  destruct (installment_month n mp r b a). discriminate.
Qed.

Lemma principal_entries_not_nil (mp r b : T) (k : nat) (a : Z) :
  principal_entries mp r b (range_from a (S k)) <> [].
Proof. cbn [range_from principal_entries]. discriminate. Qed.

(** *** The installment recurrence *)

Lemma installment_month_before (n : Z) (mp r b : T) (m : Z) :
  m <> n ->
  installment_month n mp r b m =
  (mkEntry m mp (sub mp (mul b r)) (mul b r) (next_balance mp r b),
   next_balance mp r b).
Proof.
  intros Hm. unfold installment_month, next_balance.
  apply Z.eqb_neq in Hm. now rewrite Hm.
Qed.

Lemma installment_month_last (n : Z) (mp r b : T) :
  snd (installment_month n mp r b n) = fold_residual (next_balance mp r b).
Proof.
  unfold installment_month, next_balance, fold_residual.
  rewrite Z.eqb_refl. now destruct (ltb _ _).
Qed.

(** Over the months [a .. n] the loop ends with the unadjusted balance,
    adjusted once in month [n]. *)
Lemma installment_final_range (n : Z) (mp r : T) (k : nat) :
  forall (a : Z) (b : T),
    (a + Z.of_nat k = n)%Z ->
    installment_final n mp r b (range_from a (S k)) =
    fold_residual (balance_after mp r b (S k)).
Proof.
  induction k as [|k IH]; intros a b Ha.
  - assert (a = n) by lia. subst a. simpl.
    apply installment_month_last.
  - change (range_from a (S (S k))) with (a :: range_from (a + 1) (S k)).
    cbn [installment_final].
    rewrite installment_month_before by lia. cbn [snd].
    rewrite IH by lia. reflexivity.
Qed.

Lemma last_cons_default {A : Type} (l : list A) :
  forall x d, last (x :: l) d = last l x.
Proof.
  induction l as [|y l IH]; intros x d; [reflexivity|].
  change (last (x :: y :: l) d) with (last (y :: l) d).
  rewrite (IH y d), (IH y x). reflexivity.
Qed.

(** The balance of the last line is the balance the loop ends with. *)
Lemma installment_last_balance (n : Z) (mp r : T) (months : list Z) :
  forall b,
    last (map balance (installment_entries n mp r b months)) b =
    installment_final n mp r b months.
Proof.
  induction months as [|m rest IH]; intros b; [reflexivity|].
  cbn [installment_entries installment_final].
  destruct (installment_month n mp r b m) as [e b'] eqn:E.
  cbn [map snd]. rewrite last_cons_default.
  assert (Hb : balance e = b').
  { unfold installment_month in E.
    destruct (m =? n)%Z; [destruct (ltb _ _)|]; inversion E; reflexivity. }
  rewrite Hb. apply IH.
Qed.

Lemma principal_last_balance (mp r : T) (months : list Z) :
  forall b,
    last (map balance (principal_entries mp r b months)) b =
    principal_final mp b months.
Proof.
  induction months as [|m rest IH]; intros b; [reflexivity|].
  cbn [principal_entries principal_final map balance].
  rewrite last_cons_default. apply IH.
Qed.

Lemma last_entry_balance (details : list (entry T)) (d : T) :
  details <> [] ->
  exists e, last_entry details = Some e /\
            balance e = last (map balance details) d.
Proof.
  intros Hne. destruct (exists_last Hne) as [pre [e ->]].
  exists e. unfold last_entry.
  rewrite rev_app_distr, map_app. simpl. rewrite last_last. auto.
Qed.

Lemma last_entry_of_final (details : list (entry T)) (b v : T) :
  details <> [] ->
  last (map balance details) b = v ->
  exists e, last_entry details = Some e /\ balance e = v.
Proof.
  intros Hne Hl. destruct (last_entry_balance details b Hne) as [e [E B]].
  exists e. split; [exact E | congruence].
Qed.

(** *** The lines, one by one *)

Lemma balance_after_succ (mp r : T) (k : nat) :
  forall b,
    balance_after mp r b (S k) = next_balance mp r (balance_after mp r b k).
Proof.
  induction k as [|k IH]; intros b; [reflexivity|].
  change (balance_after mp r b (S (S k)))
    with (balance_after mp r (next_balance mp r b) (S k)).
  rewrite IH. reflexivity.
Qed.

Lemma last_entry_cons (e : entry T) (l : list (entry T)) :
  l <> [] -> last_entry (e :: l) = last_entry l.
Proof.
  intros Hne. destruct (exists_last Hne) as [pre [x ->]].
  unfold last_entry. simpl. rewrite rev_app_distr. reflexivity.
Qed.

(** The last line is the line of month [n], computed from the balance that
    the recurrence reaches after the months before it. *)
Lemma installment_last_line (n : Z) (mp r : T) (k : nat) :
  forall (a : Z) (b : T),
    (a + Z.of_nat k = n)%Z ->
    last_entry (installment_entries n mp r b (range_from a (S k))) =
    Some (fst (installment_month n mp r (balance_after mp r b k) n)).
Proof.
  induction k as [|k IH]; intros a b Ha.
  - assert (a = n) by lia. subst a.
    cbn [range_from installment_entries balance_after].
    destruct (installment_month n mp r b n) as [e b']. reflexivity.
  - change (range_from a (S (S k))) with (a :: range_from (a + 1) (S k)).
    cbn [installment_entries].
    rewrite installment_month_before by lia.
    rewrite last_entry_cons by apply installment_entries_not_nil.
    rewrite IH by lia. reflexivity.
Qed.

(** The line of the last month: lines 48-56 on the balance [b] left by the
    month before. *)
Lemma installment_month_folded (n : Z) (mp r b : T) :
  let v := next_balance mp r b in
  let e := fst (installment_month n mp r b n) in
  interest e = mul b r /\
  (ltb (abs v) hundredth = true ->
   balance e = of_Z 0 /\ principal e = add (sub mp (interest e)) v) /\
  (ltb (abs v) hundredth = false ->
   balance e = v /\ principal e = sub mp (interest e)).
Proof.
  intros v e. subst v e. unfold installment_month, next_balance.
  rewrite Z.eqb_refl.
  destruct (ltb _ _); cbn [fst interest balance principal];
    repeat split; intros; auto; discriminate.
Qed.


(** Before the last month, the principal portion of a line is the payment
    less the interest, and the balance goes down by that portion. *)
Lemma installment_entries_conserve (n : Z) (mp r : T) (months : list Z) :
  forall b,
    Forall2 (fun b0 e => month e <> n ->
                         principal e = sub mp (mul b0 r) /\
                         balance e = sub b0 (principal e))
      (opening_balances b (installment_entries n mp r b months))
      (installment_entries n mp r b months).
Proof.
  unfold opening_balances.
  induction months as [|m rest IH]; intros b; [constructor|].
  cbn [installment_entries].
  destruct (installment_month n mp r b m) as [e b'] eqn:E.
  assert (He : balance e = b' /\
               (month e <> n ->
                principal e = sub mp (mul b r) /\
                balance e = sub b (principal e))).
  { unfold installment_month in E.
    destruct (Z.eqb_spec m n) as [->|Hm];
      [destruct (ltb _ _)|]; inversion E; cbn [month balance principal];
      split; auto; intros Hn; congruence. }
  destruct He as [Hb Hc]. specialize (IH b').
  cbn [map]. rewrite Hb.
  change (removelast
            (b :: b' :: map balance (installment_entries n mp r b' rest)))
    with (b :: removelast
                 (b' :: map balance (installment_entries n mp r b' rest))).
  constructor; [exact Hc | exact IH].
Qed.


(** Every line of the equal-principal schedule has the same principal
    portion, which its balance goes down by. *)
Lemma principal_entries_conserve (mp r : T) (months : list Z) :
  forall b,
    Forall2 (fun b0 e => balance e = sub b0 (principal e))
      (opening_balances b (principal_entries mp r b months))
      (principal_entries mp r b months).
Proof.
  unfold opening_balances.
  induction months as [|m rest IH]; intros b; [constructor|].
  cbn [principal_entries map balance].
  match goal with
  | |- Forall2 _ (removelast (b :: ?x :: ?l)) _ =>
      change (removelast (b :: x :: l)) with (b :: removelast (x :: l))
  end.
  constructor; [reflexivity | apply IH].
Qed.

Lemma principal_entries_lines (mp r : T) (months : list Z) :
  forall b,
    Forall2 (fun b0 e => principal e = mp /\ balance e = sub b0 mp)
      (opening_balances b (principal_entries mp r b months))
      (principal_entries mp r b months).
Proof.
  unfold opening_balances.
  induction months as [|m rest IH]; intros b; [constructor|].
  cbn [principal_entries map balance].
  match goal with
  | |- Forall2 _ (removelast (b :: ?x :: ?l)) _ =>
      change (removelast (b :: x :: l)) with (b :: removelast (x :: l))
  end.
  constructor; [split; reflexivity | apply IH].
Qed.

End LoopFacts.

(** ** The control flow of the call *)

Section Calls.

Context {T : Type} `{PyNumLaws T}.

Lemma monthly_rate_ok (rate : T) :
  div rate (of_Z 12) = Ok (monthly_rate rate).
Proof. unfold div, monthly_rate. now rewrite twelve_not_zero. Qed.

(** Under ["equal_principal"] the call returns as soon as the number of
    months converts to a non-zero number, whatever the amount and the rate. *)
Lemma principal_call (loan_amount rate : T) (years : Z) :
  let n := (years * 12)%Z in
  let mp := true_div loan_amount (of_Z n) in
  let r := monthly_rate rate in
  fits n = true ->
  is_zero (of_Z n) = false ->
  exists first last total,
    mortgage_calculator loan_amount rate years "equal_principal" =
    Ok (Principal first last total
          (principal_entries mp r loan_amount (range 1 (n + 1)))).
Proof.
  intros n mp r Hfit Hnz. unfold mortgage_calculator, mortgage_calculator_on.
  rewrite monthly_rate_ok. simpl.
  unfold of_int, div. fold n. rewrite Hfit. simpl. rewrite Hnz. simpl.
  match goal with
  | |- context [principal_loop ?f ?a ?b ?c (?st, ?ds) ?ms] =>
      pose proof (principal_loop_details a b c ms st ds) as D;
      destruct (principal_loop f a b c (st, ds) ms) as [st' ds']
  end.
  simpl in D. subst ds'. do 3 eexists. reflexivity.
Qed.

(** Under ["equal_installment"] the call returns as soon as the monthly
    payment of lines 36-40 is computed. *)
Lemma installment_call (loan_amount rate : T) (years : Z) (mp : T) :
  let n := (years * 12)%Z in
  let r := monthly_rate rate in
  fits n = true ->
  installment_payment loan_amount r n = Ok mp ->
  mortgage_calculator loan_amount rate years "equal_installment" =
  Ok (Installment mp (mul mp (of_Z n))
        (installment_entries n mp r loan_amount (range 1 (n + 1)))).
Proof.
  intros n r Hfit Hmp. unfold mortgage_calculator, mortgage_calculator_on.
  rewrite monthly_rate_ok. simpl. fold n r. rewrite Hmp. simpl.
  unfold of_int. rewrite Hfit. simpl.
  rewrite installment_loop_unfold. reflexivity.
Qed.

(** Lines 36-40 when the rate is not zero: the annuity formula, on the
    power [p] that [**] returned. *)
Lemma installment_payment_formula (loan_amount r : T) (n : Z) (p : T) :
  is_zero r = false ->
  pow (add (of_Z 1) r) n = Ok p ->
  is_zero (sub p (of_Z 1)) = false ->
  installment_payment loan_amount r n =
  Ok (true_div (mul (mul loan_amount r) p) (sub p (of_Z 1))).
Proof.
  intros Hr Hp Hd. unfold installment_payment, div.
  rewrite Hr, Hp. simpl. now rewrite Hd.
Qed.



End Calls.

(** ** Exact arithmetic: the amortization identities *)

Ltac qops :=
  cbn [add sub mul true_div is_zero abs ltb hundredth of_Z fits pow Q_num]
    in *.

Section ExactFacts.

Local Open Scope Q_scope.

Lemma Qpower_succ_nat (q : Q) (k : nat) :
  q ^ Z.of_nat (S k) == q * q ^ Z.of_nat k.
Proof.
  rewrite Nat2Z.inj_succ. unfold Z.succ. rewrite Z.add_comm.
  rewrite Qpower_plus' by lia. simpl. reflexivity.
Qed.

Lemma Qpower_nat_gt_1 (q : Q) (k : nat) :
  1 < q -> 1 < q ^ Z.of_nat (S k).
Proof.
  intros Hq. induction k as [|k IH].
  - simpl. exact Hq.
  - rewrite Qpower_succ_nat. nra.
Qed.

Lemma Qpower_gt_1 (q : Q) (n : Z) :
  1 < q -> (0 < n)%Z -> 1 < q ^ n.
Proof.
  intros Hq Hn. replace n with (Z.of_nat (S (Z.to_nat (n - 1)))) by lia.
  now apply Qpower_nat_gt_1.
Qed.

Lemma inject_Z_succ_nat (k : nat) :
  inject_Z (Z.of_nat (S k)) == inject_Z (Z.of_nat k) + 1.
Proof. rewrite Nat2Z.inj_succ. unfold Z.succ. now rewrite inject_Z_plus. Qed.

Lemma inject_Z_not_zero (n : Z) : (n <> 0)%Z -> ~ inject_Z n == 0.
Proof. intros Hn E. unfold Qeq in E. simpl in E. lia. Qed.

Lemma exact_months_not_zero (n : Z) :
  (n <> 0)%Z -> is_zero (T:=Q) (of_Z n) = false.
Proof.
  intros Hn. qops. apply not_true_is_false. intros E.
  apply Qeq_bool_iff in E. now apply (inject_Z_not_zero n).
Qed.

(** *** Equal installment *)

(** With [q = 1 + r], the balance follows [b' = b * q - mp]; scaled by [r],
    its closed form needs no division. *)
Lemma balance_after_rate (mp r : Q) (k : nat) :
  forall b,
    balance_after mp r b k * r ==
    (b * r - mp) * (1 + r) ^ Z.of_nat k + mp.
Proof.
  induction k as [|k IH]; intros b.
  - simpl. ring.
  - cbn [balance_after]. rewrite IH, Qpower_succ_nat.
    unfold next_balance. qops. ring.
Qed.

Lemma balance_after_zero_rate (mp r : Q) (k : nat) :
  r == 0 ->
  forall b, balance_after mp r b k == b - inject_Z (Z.of_nat k) * mp.
Proof.
  intros Hr. induction k as [|k IH]; intros b.
  - simpl. ring.
  - cbn [balance_after]. rewrite IH, inject_Z_succ_nat.
    unfold next_balance. qops. rewrite Hr. ring.
Qed.

Lemma fold_residual_zero (v : Q) : v == 0 -> fold_residual v == 0.
Proof.
  intros Hv. unfold fold_residual. destruct (ltb _ _); [reflexivity|exact Hv].
Qed.

(** Lines 36-40 on fractions: the payment is always computed, and it is the
    annuity payment. *)
Lemma installment_payment_exact (P r : Q) (n : Z) :
  0 <= r -> (0 < n)%Z ->
  exists mp,
    installment_payment P r n = Ok mp /\
    ((r == 0 /\ mp = P / inject_Z n) \/
     (0 < r /\
      mp = P * r * (1 + r) ^ n / ((1 + r) ^ n - 1) /\
      1 < (1 + r) ^ n)).
Proof.
  intros Hr Hn. unfold installment_payment, of_int, div. qops.
  destruct (Qeq_bool r 0) eqn:Er.
  - apply Qeq_bool_iff in Er.
    assert (Hz := exact_months_not_zero n). qops.
    simpl. rewrite Hz by lia. eexists. split; [reflexivity|]. left. auto.
  - apply Qeq_bool_neq in Er.
    assert (Hr' : 0 < r).
    { apply Qle_lteq in Hr. destruct Hr as [|E]; [assumption|].
      symmetry in E. contradiction. }
    assert (Hp : 1 < (1 + r) ^ n) by (apply Qpower_gt_1; [lra | exact Hn]).
    unfold Q_pow.
    assert (Hq : Qeq_bool (inject_Z 1 + r) 0 = false).
    { apply not_true_is_false. intros E. apply Qeq_bool_iff in E.
      change (inject_Z 1) with 1 in E. lra. }
    rewrite Hq. simpl.
    change (inject_Z 1) with 1.
    assert (Hz : Qeq_bool ((1 + r) ^ n - 1) 0 = false).
    { apply not_true_is_false. intros E. apply Qeq_bool_iff in E. lra. }
    rewrite Hz. eexists. split; [reflexivity|]. right. auto.
Qed.

(** The annuity payment amortizes the loan: after the last month nothing is
    left, before any adjustment. *)
Lemma balance_after_payment (P r mp : Q) (n : Z) :
  (0 < n)%Z ->
  (r == 0 /\ mp = P / inject_Z n) \/
  (0 < r /\ mp = P * r * (1 + r) ^ n / ((1 + r) ^ n - 1) /\
   1 < (1 + r) ^ n) ->
  balance_after mp r P (Z.to_nat n) == 0.
Proof.
  intros Hn [[Hr Hmp] | [Hr [Hmp Hp]]].
  - rewrite balance_after_zero_rate by exact Hr.
    rewrite Z2Nat.id by lia. subst mp. field.
    apply inject_Z_not_zero. lia.
  - assert (E := balance_after_rate mp r (Z.to_nat n) P).
    rewrite Z2Nat.id in E by lia.
    assert (E0 : (P * r - mp) * (1 + r) ^ n + mp == 0).
    { subst mp. field. lra. }
    rewrite E0 in E.
    apply Qmult_integral in E. destruct E as [E|E]; [exact E | lra].
Qed.

(** Each month, the principal portion is what the balance goes down by,
    also in the month of the adjustment. *)
Lemma installment_month_conserves (n : Z) (mp r b : Q) (m : Z) :
  principal (fst (installment_month n mp r b m)) +
  snd (installment_month n mp r b m) == b.
Proof.
  unfold installment_month.
  destruct (m =? n)%Z; [destruct (ltb _ _)|]; qops; simpl;
    change (inject_Z 0) with 0; ring.
Qed.

Lemma installment_sum_principal (n : Z) (mp r : Q) (months : list Z) :
  forall acc b,
    fold_left (fun acc e => acc + principal e)
      (installment_entries n mp r b months) acc +
    installment_final n mp r b months == acc + b.
Proof.
  induction months as [|m rest IH]; intros acc b.
  - simpl. reflexivity.
  - cbn [installment_entries installment_final].
    assert (C := installment_month_conserves n mp r b m).
    destruct (installment_month n mp r b m) as [e b'].
    cbn [fst snd fold_left] in *. rewrite IH. lra.
Qed.


(** *** Equal principal *)

Lemma principal_final_exact (mp : Q) (k : nat) :
  forall a b,
    principal_final mp b (range_from a k) ==
    b - inject_Z (Z.of_nat k) * mp.
Proof.
  induction k as [|k IH]; intros a b.
  - simpl. ring.
  - cbn [range_from principal_final]. rewrite IH, inject_Z_succ_nat.
    qops. ring.
Qed.

Lemma principal_sum_principal (mp r : Q) (months : list Z) :
  forall acc b,
    fold_left (fun acc e => acc + principal e)
      (principal_entries mp r b months) acc +
    principal_final mp b months == acc + b.
Proof.
  induction months as [|m rest IH]; intros acc b.
  - simpl. reflexivity.
  - cbn [principal_entries principal_final fold_left principal].
    rewrite IH. qops. ring.
Qed.



Lemma monthly_rate_nonneg (rate : Q) :
  0 <= rate -> 0 <= monthly_rate rate.
Proof.
  intros Hr. unfold monthly_rate. qops. change (inject_Z 12) with 12.
  apply Qle_shift_div_l; lra.
Qed.




(** *** The call *)

(** Every valid equal-installment call returns, with the schedule of the
    recurrence, and the recurrence ends on a zero balance. *)
Lemma exact_installment_call (P rate : Q) (years : Z) :
  (0 < years)%Z -> 0 <= rate ->
  let n := (years * 12)%Z in
  let r := monthly_rate rate in
  exists mp,
    ((r == 0 /\ mp = P / inject_Z n) \/
     (0 < r /\ mp = P * r * (1 + r) ^ n / ((1 + r) ^ n - 1) /\
      1 < (1 + r) ^ n)) /\
    mortgage_calculator P rate years "equal_installment" =
    Ok (Installment mp (mp * inject_Z n)
          (installment_entries n mp r P (range_from 1 (Z.to_nat n)))) /\
    installment_final n mp r P (range_from 1 (Z.to_nat n)) == 0.
Proof.
  intros Hy Hrate n r.
  assert (Hn : (0 < n)%Z) by (unfold n; lia).
  assert (Hr : 0 <= r) by (apply monthly_rate_nonneg; exact Hrate).
  destruct (installment_payment_exact P r n Hr Hn) as [mp [Emp Hmp]].
  exists mp. split; [exact Hmp|]. split.
  - rewrite <- range_months.
    exact (installment_call P rate years mp eq_refl Emp).
  - destruct (Z.to_nat n) as [|k] eqn:Ek; [lia|].
    rewrite (installment_final_range n mp r k 1 P) by lia.
    apply fold_residual_zero. rewrite <- Ek.
    apply balance_after_payment; assumption.
Qed.

(** Every equal-principal call over a positive term returns, with the
    schedule of repeated subtraction, which ends on a zero balance. *)
Lemma exact_principal_call (P rate : Q) (years : Z) :
  (0 < years)%Z ->
  let n := (years * 12)%Z in
  let mp := P / inject_Z n in
  let r := monthly_rate rate in
  exists first last total,
    mortgage_calculator P rate years "equal_principal" =
    Ok (Principal first last total
          (principal_entries mp r P (range_from 1 (Z.to_nat n)))) /\
    principal_final mp P (range_from 1 (Z.to_nat n)) == 0.
Proof.
  intros Hy n mp r.
  assert (Hn : (0 < n)%Z) by (unfold n; lia).
  destruct (principal_call P rate years) as [first [last [total E]]].
  - reflexivity.
  - apply exact_months_not_zero. lia.
  - exists first, last, total. split.
    + rewrite <- range_months. exact E.
    + rewrite principal_final_exact, Z2Nat.id by lia.
      unfold mp. field. apply inject_Z_not_zero. lia.
Qed.

End ExactFacts.

(** ** The call in a heap *)

Section HeapFacts.

Context {T : Type} `{PyNum T}.

Lemma extended_nil (l : nat) (h : heap T) : extended l [] h h.
Proof. repeat split; auto. now rewrite app_nil_r. Qed.

Lemma extended_append (l : nat) (es : list (entry T)) (e : entry T)
    (h h1 h2 : heap T) :
  extended l [e] h h1 -> extended l es h1 h2 -> extended l (e :: es) h h2.
Proof.
  intros [N1 [C1 F1]] [N2 [C2 F2]]. repeat split.
  - congruence.
  - rewrite C2, C1, <- app_assoc. reflexivity.
  - intros l' Hl. rewrite F2, F1 by exact Hl. reflexivity.
Qed.

Lemma append_at_extended (l : nat) (h : heap T) (e : entry T) :
  exists h', append_at (l, h) e = (l, h') /\ extended l [e] h h'.
Proof.
  eexists. split; [reflexivity|]. repeat split; simpl.
  - now rewrite Nat.eqb_refl.
  - intros l' Hl. apply Nat.eqb_neq in Hl. now rewrite Hl.
Qed.

Lemma installment_loop_heap (n : Z) (mp r : T) (months : list Z) :
  forall (b : T) (l : nat) (h : heap T),
  exists h',
    installment_loop append_at n mp r (b, (l, h)) months =
    (installment_final n mp r b months, (l, h')) /\
    extended l (installment_entries n mp r b months) h h'.
Proof.
  unfold installment_loop.
  induction months as [|m rest IH]; intros b l h.
  - exists h. split; [reflexivity | apply extended_nil].
  - cbn [fold_left installment_entries installment_final fst snd].
    destruct (installment_month n mp r b m) as [e b'].
    destruct (append_at_extended l h e) as [h1 [E1 X1]].
    rewrite E1. destruct (IH b' l h1) as [h2 [E2 X2]].
    exists h2. split; [exact E2|]. cbn [snd].
    eapply extended_append; eauto.
Qed.

Lemma principal_loop_heap (n : Z) (mp r : T) (months : list Z) :
  forall (st : principal_state T) (ds : list (entry T)) (l : nat) (h : heap T),
  exists h',
    principal_loop append_at n mp r (st, (l, h)) months =
    (fst (principal_loop (fun l e => l ++ [e]) n mp r (st, ds) months),
     (l, h')) /\
    extended l (principal_entries mp r (st_balance st) months) h h'.
Proof.
  unfold principal_loop.
  induction months as [|m rest IH]; intros st ds l h.
  - exists h. split; [reflexivity | apply extended_nil].
  - cbn [fold_left principal_entries fst snd].
    destruct (append_at_extended l h (fst (principal_month n mp r st m)))
      as [h1 [E1 X1]].
    destruct (principal_month n mp r st m) as [e st'] eqn:E.
    cbn [fst] in *. rewrite E1.
    destruct (IH st' (ds ++ [e]) l h1) as [h2 [E2 X2]].
    exists h2. split; [exact E2|].
    unfold principal_month in E. inversion E; subst. cbn [st_balance] in *.
    eapply extended_append; eauto.
Qed.

Lemma alloc_extended_untouched (h h' : heap T) (es : list (entry T)) :
  extended (fst (alloc h)) es (snd (alloc h)) h' ->
  untouched h h' /\ cell h' (fst (alloc h)) = es.
Proof.
  intros [N [C F]]. simpl in *. repeat split.
  - lia.
  - intros l Hl. rewrite F by lia.
    destruct (Nat.eqb_spec l (next h)); [lia | reflexivity].
  - rewrite C, Nat.eqb_refl. reflexivity.
Qed.

(** A call in a heap computes the value of the call on lists, and leaves
    the objects of the heap as they were. *)
Lemma call_in_heap (h : heap T) (loan_amount rate : T) (years : Z)
    (method : string) :
  map_result contents
    (mortgage_calculator_in h loan_amount rate years method) =
  mortgage_calculator loan_amount rate years method /\
  match mortgage_calculator_in h loan_amount rate years method with
  | Ok s => untouched h (heap_of s)
  | Raise _ => True
  end.
Proof.
  unfold mortgage_calculator_in, mortgage_calculator, mortgage_calculator_on.
  destruct (div rate (of_Z 12)) as [r|e]; cbn [bind map_result]; [|auto].
  destruct (method =? "equal_installment")%string.
  - destruct (installment_payment loan_amount r (years * 12)) as [mp|e];
      cbn [bind map_result]; [|auto].
    destruct (of_int (years * 12)) as [m|e]; cbn [bind map_result]; [|auto].
    rewrite installment_loop_unfold.
    destruct (alloc h) as [l h0] eqn:A.
    destruct (installment_loop_heap (years * 12) mp r
                (range 1 (years * 12 + 1)) loan_amount l h0)
      as [h' [E X]].
    rewrite E. unfold heap_of. cbn [map_result contents details_of snd].
    replace l with (fst (alloc h)) in * by now rewrite A.
    replace h0 with (snd (alloc h)) in X by now rewrite A.
    apply alloc_extended_untouched in X. destruct X as [U C].
    rewrite C. auto.
  - destruct (method =? "equal_principal")%string; cbn [map_result]; [|auto].
    destruct (of_int (years * 12)) as [m|e]; cbn [bind map_result]; [|auto].
    destruct (div loan_amount m) as [mp|e]; cbn [bind map_result]; [|auto].
    destruct (alloc h) as [l h0] eqn:A.
    match goal with
    | |- context [principal_loop _ ?n ?a ?b (?st, []) ?ms] =>
        destruct (principal_loop_heap n a b ms st [] l h0) as [h' [E X]];
        pose proof (principal_loop_details n a b ms st []) as D
    end.
    rewrite E.
    destruct (principal_loop (fun l e => l ++ [e]) _ _ _ _ _) as [st' ds].
    unfold heap_of.
    cbn [fst snd map_result contents details_of app] in *.
    replace l with (fst (alloc h)) in * by now rewrite A.
    replace h0 with (snd (alloc h)) in X by now rewrite A.
    apply alloc_extended_untouched in X. destruct X as [U C].
    rewrite C, D. auto.
Qed.

End HeapFacts.

(** ** Binary64: a zero rate on a finite balance *)

Section FloatFacts.

Local Open Scope float_scope.



End FloatFacts.

(** ** Binary64 on the usage example of the source *)

(** Lines 151-153 and 176: 1300000 at 2.6% over 20 years, equal principal.
    The 240 lines have the same principal portion, the payments never
    increase, and the last balance is a rounding residue of about -5.5e-10,
    not zero. *)
Example float_usage_equal_principal :
  exists first last total details e,
    float_call 1300000 0.026 20 "equal_principal" =
    Ok (Principal (Some first) (Some last) total details) /\
    List.length details = 240%nat /\
    forallb (fun e => PrimFloat.eqb (principal e) (1300000 / 240)) details
    = true /\
    non_increasingb (map payment details) = true /\
    PrimFloat.ltb last first = true /\
    last_entry details = Some e /\
    balance e = (-5.5479176808148623e-10)%float.
Proof.
  do 5 eexists. split; [vm_compute; reflexivity|].
  repeat split; vm_compute; reflexivity.
Qed.

(** The same loan at rate 0, equal installment: the payment is
    [1300000 / 240], no line carries interest, and the last balance is set
    to zero by the adjustment of lines 53-56. *)
Example float_zero_rate_installment :
  exists total details e,
    float_call 1300000 0 20 "equal_installment" =
    Ok (Installment (1300000 / 240)%float total details) /\
    List.length details = 240%nat /\
    forallb (fun e => is_zero (interest e)) details = true /\
    last_entry details = Some e /\
    balance e = 0%float.
Proof.
  do 3 eexists. split; [vm_compute; reflexivity|].
  repeat split; vm_compute; reflexivity.
Qed.

(** ** The claims of the specification *)

Local Open Scope Q_scope.

(** C1, as amended: the function validates none of its parameters.  Under
    ["equal_principal"], whatever the amount and the rate (zero and negative
    ones too), every term whose number of months converts to a non-zero
    number (negative terms too) gives a schedule of max(0, 12 * years) lines
    and no error. *)
Theorem parameters_not_validated {T : Type} `{PyNumLaws T}
    (loan_amount rate : T) (years : Z) :
  fits (years * 12) = true ->
  is_zero (of_Z (years * 12)) = false ->
  exists first last total details,
    mortgage_calculator loan_amount rate years "equal_principal" =
    Ok (Principal first last total details) /\
    List.length details = Z.to_nat (years * 12).
Proof.
  intros Hfit Hnz.
  destruct (principal_call loan_amount rate years Hfit Hnz)
    as [first [last [total E]]].
  exists first, last, total. eexists. split; [exact E|].
  apply (numbered_of_months (years * 12)), principal_entries_months.
Qed.

Lemma parameters_not_validated_witness :
  exists first last total details,
    float_call (-1000) (-0.05) 1 "equal_principal" =
    Ok (Principal first last total details) /\
    List.length details = 12%nat.
Proof.
  apply (parameters_not_validated (T:=float) (-1000)%float (-0.05)%float 1);
    reflexivity.
Defined.

(** C1, as stated, fails: a principal of 0 is accepted, and the call
    returns a schedule of 12 lines. *)
Lemma zero_principal_accepted :
  exists first last total details,
    float_call 0 0.05 1 "equal_principal" =
    Ok (Principal first last total details) /\
    List.length details = 12%nat.
Proof. do 4 eexists. split; [vm_compute; reflexivity | reflexivity]. Qed.

(** C2, as amended.  In every arithmetic, binary64 included, whenever the
    call returns over a positive term, the schedule has its [n] lines and
    the principal portions account for the balance line by line, in the
    arithmetic of the code.  Under ["equal_installment"], every line before
    the last has the payment less the interest as its principal portion,
    and the balance carried over less that portion as its balance; the last
    line depends on the balance [v] that this recurrence (lines 48-50)
    reaches after [n] months: when [v] is within 0.01 of zero (line 54), the
    last balance is set to 0 and [v] is added to the last principal
    portion, and when it is not, the last balance is [v], left as it is.
    Under ["equal_principal"] every line, the last one too, has the balance
    carried over less its principal portion as its balance: the last
    balance is the amount after [n] subtractions of the monthly principal,
    never adjusted.  In exact arithmetic, for every valid input and both
    methods, the last balance is zero and the principal portions sum to the
    principal. *)
Theorem schedule_amortizes :
  (forall (T : Type) `{PyNumLaws T} (loan_amount rate : T) (years : Z)
          (mp : T),
     let n := (years * 12)%Z in
     let r := monthly_rate rate in
     let v := balance_after mp r loan_amount (Z.to_nat n) in
     (0 < years)%Z ->
     fits n = true ->
     installment_payment loan_amount r n = Ok mp ->
     exists total details e,
       mortgage_calculator loan_amount rate years "equal_installment" =
       Ok (Installment mp total details) /\
       numbered n details /\
       Forall2 (fun b e => month e <> n ->
                           principal e = sub mp (mul b r) /\
                           balance e = sub b (principal e))
         (opening_balances loan_amount details) details /\
       last_entry details = Some e /\
       (ltb (abs v) hundredth = true ->
        balance e = of_Z 0 /\ principal e = add (sub mp (interest e)) v) /\
       (ltb (abs v) hundredth = false ->
        balance e = v /\ principal e = sub mp (interest e))) /\
  (forall (T : Type) `{PyNumLaws T} (loan_amount rate : T) (years : Z),
     let n := (years * 12)%Z in
     let mp := true_div loan_amount (of_Z n) in
     (0 < years)%Z ->
     fits n = true ->
     is_zero (of_Z n) = false ->
     exists first last total details e,
       mortgage_calculator loan_amount rate years "equal_principal" =
       Ok (Principal first last total details) /\
       numbered n details /\
       Forall2 (fun b e => balance e = sub b (principal e))
         (opening_balances loan_amount details) details /\
       last_entry details = Some e /\
       balance e = principal_final mp loan_amount (range 1 (n + 1))) /\
  (forall (P rate : Q) (years : Z) (method : string),
     0 < P -> (0 < years)%Z -> 0 <= rate ->
     method = "equal_installment"%string \/
     method = "equal_principal"%string ->
     exists s e,
       mortgage_calculator P rate years method = Ok s /\
       numbered (years * 12) (details_of s) /\
       last_entry (details_of s) = Some e /\
       balance e == 0 /\
       sum_principal (details_of s) == P).
Proof.
  split; [|split].
  - intros T N Laws loan_amount rate years mp n r v Hy Hfit Hmp.
    pose proof (installment_call loan_amount rate years mp Hfit Hmp) as E.
    fold n r in E.
    assert (Hnum : numbered n
              (installment_entries n mp r loan_amount (range 1 (n + 1))))
      by apply numbered_of_months, installment_entries_months.
    pose proof (installment_entries_conserve n mp r (range 1 (n + 1))
                  loan_amount) as Hcons.
    rewrite range_months in E, Hnum, Hcons. subst v.
    destruct (Z.to_nat n) as [|k] eqn:Ek; [lia|].
    do 2 eexists.
    exists (fst (installment_month n mp r
                   (balance_after mp r loan_amount k) n)).
    split; [exact E|]. split; [exact Hnum|]. split; [exact Hcons|].
    split; [apply installment_last_line; lia|].
    rewrite balance_after_succ.
    apply (installment_month_folded n mp r (balance_after mp r loan_amount k)).
  - intros T N Laws loan_amount rate years n mp Hy Hfit Hnz.
    destruct (principal_call loan_amount rate years Hfit Hnz)
      as [first [last [total E]]].
    fold n mp in E. set (r := monthly_rate rate) in *.
    assert (Hnum : numbered n
              (principal_entries mp r loan_amount (range 1 (n + 1))))
      by apply numbered_of_months, principal_entries_months.
    assert (Hcons :
              Forall2 (fun b e => balance e = sub b (principal e))
                (opening_balances loan_amount
                   (principal_entries mp r loan_amount (range 1 (n + 1))))
                (principal_entries mp r loan_amount (range 1 (n + 1)))).
    { apply principal_entries_conserve. }
    rewrite range_months in *.
    destruct (Z.to_nat n) as [|k] eqn:Ek; [lia|].
    destruct (last_entry_of_final
                (principal_entries mp r loan_amount (range_from 1 (S k)))
                loan_amount _
                (principal_entries_not_nil mp r loan_amount k 1)
                (principal_last_balance mp r _ loan_amount)) as [e [L B]].
    exists first, last, total. eexists. exists e.
    split; [exact E|]. split; [exact Hnum|]. split; [exact Hcons|].
    split; [exact L | exact B].
  - intros P rate years method HP Hy Hrate [-> | ->].
    + destruct (exact_installment_call P rate years Hy Hrate)
        as [mp [_ [E F]]].
      set (n := (years * 12)%Z) in *. set (r := monthly_rate rate) in *.
      assert (Hnum : numbered n
                (installment_entries n mp r P (range 1 (n + 1))))
        by apply numbered_of_months, installment_entries_months.
      rewrite range_months in Hnum.
      destruct (Z.to_nat n) as [|k] eqn:Ek; [lia|].
      destruct (last_entry_of_final
                  (installment_entries n mp r P (range_from 1 (S k))) P _
                  (installment_entries_not_nil n mp r P k 1)
                  (installment_last_balance n mp r _ P)) as [e [L B]].
      eexists. exists e. split; [exact E|]. cbn [details_of].
      split; [exact Hnum|]. split; [exact L|]. split.
      * rewrite B. exact F.
      * unfold sum_principal.
        pose proof (installment_sum_principal n mp r (range_from 1 (S k)) 0 P)
          as S.
        rewrite F in S. lra.
    + destruct (exact_principal_call P rate years Hy)
        as [first [last [total [E F]]]].
      set (n := (years * 12)%Z) in *. set (r := monthly_rate rate) in *.
      set (mp := P / inject_Z n) in *.
      assert (Hnum : numbered n
                (principal_entries mp r P (range 1 (n + 1))))
        by apply numbered_of_months, principal_entries_months.
      rewrite range_months in Hnum.
      destruct (Z.to_nat n) as [|k] eqn:Ek; [lia|].
      destruct (last_entry_of_final
                  (principal_entries mp r P (range_from 1 (S k))) P _
                  (principal_entries_not_nil mp r P k 1)
                  (principal_last_balance mp r _ P)) as [e [L B]].
      eexists. exists e. split; [exact E|]. cbn [details_of].
      split; [exact Hnum|]. split; [exact L|]. split.
      * rewrite B. exact F.
      * unfold sum_principal.
        pose proof (principal_sum_principal mp r (range_from 1 (S k)) 0 P)
          as S.
        rewrite F in S. lra.
Qed.

Lemma schedule_amortizes_witness :
  exists mp total details e,
    float_call 1300000 0.026 1 "equal_installment" =
    Ok (Installment mp total details) /\
    numbered 12 details /\
    last_entry details = Some e /\
    balance e = 0%float /\
    principal e =
    add (sub mp (interest e))
      (balance_after mp (monthly_rate 0.026%float) 1300000%float 12).
Proof.
  destruct schedule_amortizes as [G _].
  edestruct (G float _ _ 1300000%float 0.026%float 1%Z)
    as [total [details [e [E [N [_ [L [F _]]]]]]]];
    [reflexivity | reflexivity | vm_compute; reflexivity |].
  destruct F as [B Pr]; [vm_compute; reflexivity|].
  eexists. exists total, details, e.
  split; [exact E|]. split; [exact N|]. split; [exact L|].
  split; [exact B | exact Pr].
Defined.

(** C2, as stated, fails on binary64: a principal of 1e15 over one year
    leaves a last balance of -0.09375 under both methods (at rate 0 the
    equal-installment payment needs no power), which is not within 0.01 of
    zero, so that the adjustment of lines 53-56 does not apply either. *)
Lemma large_principal_residue :
  (exists first last total details e,
     float_call 1e15 0.05 1 "equal_principal" =
     Ok (Principal first last total details) /\
     last_entry details = Some e /\
     balance e = (-0.09375)%float /\
     ltb (abs (balance e)) hundredth = false) /\
  (exists mp total details e,
     float_call 1e15 0 1 "equal_installment" =
     Ok (Installment mp total details) /\
     last_entry details = Some e /\
     balance e = (-0.09375)%float /\
     ltb (abs (balance e)) hundredth = false).
Proof.
  split.
  - do 5 eexists. split; [vm_compute; reflexivity|].
    split; [vm_compute; reflexivity|]. split; reflexivity.
  - do 4 eexists. split; [vm_compute; reflexivity|].
    split; [vm_compute; reflexivity|]. split; reflexivity.
Qed.

(** C3 holds in exact arithmetic and fails on binary64, where the code
    misses a case: the rate 1.2e-16 is valid and not zero, so that line 36
    sends it to the annuity formula, but [1 + r] rounds to 1, the
    denominator [(1 + r) ** n - 1] is zero, and the call raises
    [ZeroDivisionError] instead of returning a monthly payment. *)
Theorem tiny_rate_no_payment :
  is_zero (monthly_rate 1.2e-16%float) = false /\
  add (of_Z 1) (monthly_rate 1.2e-16%float) = 1%float /\
  float_call 1000 1.2e-16 1 "equal_installment" = Raise ZeroDivisionError.
Proof. repeat split; vm_compute; reflexivity. Qed.

(** C4, as amended.  Under ["equal_principal"] no end-of-loan correction is
    applied, in any arithmetic: every line, the last one too, has the
    monthly principal [principal / n] as its principal portion and the
    balance carried over minus that amount as its balance, so that the last
    balance is the amount after [n] successive subtractions.  In exact
    arithmetic that balance is zero for every positive term, whether or not
    [n] divides the principal. *)
Theorem equal_principal_no_correction :
  (forall (T : Type) `{PyNumLaws T} (loan_amount rate : T) (years : Z),
     let n := (years * 12)%Z in
     let mp := true_div loan_amount (of_Z n) in
     (0 < years)%Z ->
     fits n = true ->
     is_zero (of_Z n) = false ->
     exists first last total details e,
       mortgage_calculator loan_amount rate years "equal_principal" =
       Ok (Principal first last total details) /\
       numbered n details /\
       Forall2 (fun b e => principal e = mp /\ balance e = sub b mp)
         (opening_balances loan_amount details) details /\
       last_entry details = Some e /\
       balance e = principal_final mp loan_amount (range 1 (n + 1))) /\
  (forall (P rate : Q) (years : Z),
     (0 < years)%Z ->
     exists first last total details e,
       mortgage_calculator P rate years "equal_principal" =
       Ok (Principal first last total details) /\
       numbered (years * 12) details /\
       last_entry details = Some e /\
       balance e == 0).
Proof.
  split.
  - intros T N Laws loan_amount rate years n mp Hy Hfit Hnz.
    destruct (principal_call loan_amount rate years Hfit Hnz)
      as [first [last [total E]]].
    fold n mp in E. set (r := monthly_rate rate) in *.
    exists first, last, total. eexists.
    assert (Hne : principal_entries mp r loan_amount (range 1 (n + 1)) <> []).
    { rewrite range_months.
      destruct (Z.to_nat n) as [|k] eqn:Ek; [lia|].
      apply principal_entries_not_nil. }
    destruct (last_entry_of_final _ loan_amount _ Hne
                (principal_last_balance mp r _ loan_amount)) as [e [L B]].
    exists e. split; [exact E|].
    split; [apply numbered_of_months, principal_entries_months|].
    split; [apply principal_entries_lines|]. split; [exact L | exact B].
  - intros P rate years Hy.
    destruct (exact_principal_call P rate years Hy)
      as [first [last [total [E F]]]].
    set (n := (years * 12)%Z) in *. set (r := monthly_rate rate) in *.
    set (mp := P / inject_Z n) in *.
    assert (Hnum : numbered n
              (principal_entries mp r P (range 1 (n + 1))))
      by apply numbered_of_months, principal_entries_months.
    rewrite range_months in Hnum.
    destruct (Z.to_nat n) as [|k] eqn:Ek; [lia|].
    destruct (last_entry_of_final
                (principal_entries mp r P (range_from 1 (S k))) P _
                (principal_entries_not_nil mp r P k 1)
                (principal_last_balance mp r _ P)) as [e [L B]].
    exists first, last, total. eexists. exists e.
    split; [exact E|]. split; [exact Hnum|]. split; [exact L|].
    rewrite B. exact F.
Qed.

Lemma equal_principal_no_correction_witness :
  exists first last total details e,
    float_call 1206 0.05 20 "equal_principal" =
    Ok (Principal first last total details) /\
    numbered 240 details /\
    Forall2 (fun b e => principal e = (1206 / 240)%float /\
                        balance e = (b - 1206 / 240)%float)
      (opening_balances 1206%float details) details /\
    last_entry details = Some e /\
    balance e =
    principal_final (1206 / 240)%float 1206%float (range 1 241).
Proof.
  destruct equal_principal_no_correction as [G _].
  destruct (G float _ _ 1206%float 0.05%float 20%Z)
    as [first [last [total [details [e [E [N [F [L B]]]]]]]]];
    [reflexivity .. |].
  exists first, last, total, details, e.
  split; [exact E|]. split; [exact N|]. split; [exact F|].
  split; [exact L | exact B].
Defined.

(** C4, as stated, fails: 1206 is not a multiple of 240, the quotient
    1206 / 240 = 5.025 is not even a binary64 number, and yet on binary64
    the balance after the 240th month is exactly zero. *)
Lemma zero_balance_without_divisibility :
  (exists first last total details e,
     float_call 1206 0.05 20 "equal_principal" =
     Ok (Principal first last total details) /\
     last_entry details = Some e /\
     balance e = 0%float) /\
  (1206 mod (20 * 12) = 6)%Z.
Proof.
  split; [|reflexivity].
  do 5 eexists. split; [vm_compute; reflexivity|].
  split; [vm_compute; reflexivity | reflexivity].
Qed.




(** C6 holds in exact arithmetic and fails on binary64, by the case that
    the code misses under C3: with the valid rate 1e-18 the
    equal-installment call raises [ZeroDivisionError] and returns no
    schedule, where the equal-principal call returns its 240 lines. *)
Theorem tiny_rate_no_schedule :
  float_call 1300000 1e-18 20 "equal_installment" = Raise ZeroDivisionError /\
  exists first last total details,
    float_call 1300000 1e-18 20 "equal_principal" =
    Ok (Principal first last total details) /\
    List.length details = 240%nat.
Proof.
  split; [vm_compute; reflexivity|].
  do 4 eexists. split; [vm_compute; reflexivity | reflexivity].
Qed.

(** C7: every payment method other than ["equal_installment"] and
    ["equal_principal"] makes the call raise the [ValueError] of line 90;
    nothing is returned, and no line of a schedule is computed. *)
Theorem unknown_method_rejected {T : Type} `{PyNumLaws T}
    (loan_amount rate : T) (years : Z) (method : string) :
  method <> "equal_installment"%string ->
  method <> "equal_principal"%string ->
  mortgage_calculator loan_amount rate years method = Raise ValueError.
Proof.
  intros H1 H2. unfold mortgage_calculator, mortgage_calculator_on.
  rewrite monthly_rate_ok. cbn [bind].
  apply String.eqb_neq in H1, H2. now rewrite H1, H2.
Qed.

Lemma unknown_method_rejected_witness :
  float_call 1300000 0.026 20 "unknown" = Raise ValueError.
Proof.
  apply (unknown_method_rejected (T:=float)); discriminate.
Defined.




(** An amount that is not finite shows why the interest is zero on finite
    balances only: with [float('inf')] lent at rate 0, the interest of the
    first month is [inf * 0.0], which is not a number. *)
Example infinite_amount_interest :
  exists mp total e details,
    float_call infinity 0 1 "equal_installment" =
    Ok (Installment mp total (e :: details)) /\
    PrimFloat.is_nan (interest e) = true /\
    is_zero (interest e) = false.
Proof.
  do 4 eexists. split; [vm_compute; reflexivity|].
  split; vm_compute; reflexivity.
Qed.

(** C9: the call is a function of its four arguments and has no effect on
    the objects around it: made in any two heaps, it returns the same
    figures and the same schedule, those of [mortgage_calculator]; the list
    it returns is a new object, and every object of the heap it was made in
    is left unchanged. *)
Theorem mortgage_calculator_pure {T : Type} `{PyNum T} (h1 h2 : heap T)
    (loan_amount rate : T) (years : Z) (method : string) :
  map_result contents
    (mortgage_calculator_in h1 loan_amount rate years method) =
  map_result contents
    (mortgage_calculator_in h2 loan_amount rate years method) /\
  map_result contents
    (mortgage_calculator_in h1 loan_amount rate years method) =
  mortgage_calculator loan_amount rate years method /\
  match mortgage_calculator_in h1 loan_amount rate years method with
  | Ok s => untouched h1 (heap_of s)
  | Raise _ => True
  end.
Proof.
  destruct (call_in_heap h1 loan_amount rate years method) as [E1 U1].
  destruct (call_in_heap h2 loan_amount rate years method) as [E2 _].
  repeat split; [congruence | exact E1 | exact U1].
Qed.

(** C10: with [loan_years = 0] the call raises [ZeroDivisionError] under
    both methods, whatever the amount and the rate: in
    [loan_amount / total_months], or in the annuity formula, whose
    denominator [(1 + r) ** 0 - 1] is zero. *)
Theorem zero_years_division_by_zero {T : Type} `{PyNumLaws T}
    (loan_amount rate : T) :
  mortgage_calculator loan_amount rate 0 "equal_installment" =
  Raise ZeroDivisionError /\
  mortgage_calculator loan_amount rate 0 "equal_principal" =
  Raise ZeroDivisionError.
Proof.
  split; unfold mortgage_calculator, mortgage_calculator_on;
    rewrite monthly_rate_ok; cbn [bind]; simpl.
  - unfold installment_payment, of_int, div.
    destruct (is_zero (monthly_rate rate)).
    + now rewrite zero_fits; simpl; rewrite zero_is_zero.
    + now rewrite pow_zero; simpl; rewrite one_sub_one.
  - unfold of_int, div.
    now rewrite zero_fits; simpl; rewrite zero_is_zero.
Qed.

Lemma zero_years_division_by_zero_witness :
  float_call 1300000 0.026 0 "equal_installment" = Raise ZeroDivisionError /\
  float_call 1300000 0.026 0 "equal_principal" = Raise ZeroDivisionError.
Proof.
  exact (zero_years_division_by_zero (T:=float) 1300000%float 0.026%float).
Defined.

(** ** Further properties *)

(** In any arithmetic, under ["equal_installment"] with a non-zero monthly
    rate [r], whenever the power [(1 + r) ** n] is computed, to [p], and
    [p - 1] is not zero, the call returns the monthly payment
    [loan_amount * r * p / (p - 1)], the total payment is that payment
    times [n], and every line of the schedule carries that payment. *)
Theorem installment_summary {T : Type} `{PyNumLaws T}
    (loan_amount rate : T) (years : Z) (p : T) :
  let n := (years * 12)%Z in
  let r := monthly_rate rate in
  let mp := true_div (mul (mul loan_amount r) p) (sub p (of_Z 1)) in
  fits n = true ->
  is_zero r = false ->
  pow (add (of_Z 1) r) n = Ok p ->
  is_zero (sub p (of_Z 1)) = false ->
  exists details,
    mortgage_calculator loan_amount rate years "equal_installment" =
    Ok (Installment mp (mul mp (of_Z n)) details) /\
    Forall (fun e => payment e = mp) details.
Proof.
  intros n r mp Hfit Hr Hp Hd.
  eexists. split.
  - apply installment_call; [exact Hfit|].
    apply installment_payment_formula; assumption.
  - apply installment_entries_payment.
Qed.

Lemma installment_summary_witness :
  exists mp details,
    float_call 1300000 0.026 1 "equal_installment" =
    Ok (Installment mp (mp * 12)%float details) /\
    Forall (fun e => payment e = mp) details.
Proof.
  edestruct (installment_summary (T:=float) 1300000%float 0.026%float 1)
    as [details [E F]];
    [vm_compute; reflexivity .. | ].
  eexists. exists details. split; [exact E | exact F].
Defined.

(** In exact arithmetic, for every positive term and rate, the
    equal-installment call returns the annuity payment
    [P * r * (1 + r)^n / ((1 + r)^n - 1)], that payment times [n] as the
    total, and a schedule whose every line carries that payment. *)
Theorem exact_installment_summary (P rate : Q) (years : Z) :
  (0 < years)%Z -> 0 < rate ->
  let n := (years * 12)%Z in
  let r := rate / 12 in
  let mp := P * r * (1 + r) ^ n / ((1 + r) ^ n - 1) in
  exists details,
    mortgage_calculator P rate years "equal_installment" =
    Ok (Installment mp (mp * inject_Z n) details) /\
    Forall (fun e => payment e = mp) details.
Proof.
  intros Hy Hrate n r mp.
  destruct (exact_installment_call P rate years Hy (Qlt_le_weak _ _ Hrate))
    as [mp' [[[Hr _] | [_ [Hmp _]]] [E _]]].
  - assert (Hpos : 0 < monthly_rate rate).
    { unfold monthly_rate. qops. change (inject_Z 12) with 12.
      apply Qlt_shift_div_l; lra. }
    lra.
  - change (mp' = mp) in Hmp. subst mp'.
    eexists. split; [exact E|].
    apply (installment_entries_payment (T:=Q)).
Qed.

Lemma exact_installment_summary_witness :
  exists mp details,
    mortgage_calculator 1300000 (26 # 1000) 20 "equal_installment" =
    Ok (Installment mp (mp * inject_Z 240) details) /\
    Forall (fun e => payment e = mp) details.
Proof.
  destruct (exact_installment_summary 1300000 (26 # 1000) 20)
    as [details [E F]]; [reflexivity | reflexivity |].
  eexists. exists details. split; [exact E | exact F].
Defined.

(** In any arithmetic, whenever the call returns, the schedule has exactly
    [years * 12] lines, numbered 1, 2, ... in order; and the call returns
    under ["equal_installment"] as soon as the monthly payment of lines
    36-40 is computed, under ["equal_principal"] as soon as the number of
    months is not zero as a number. *)
Theorem schedule_numbered {T : Type} `{PyNumLaws T}
    (loan_amount rate : T) (years : Z) :
  let n := (years * 12)%Z in
  fits n = true ->
  (forall mp,
     installment_payment loan_amount (monthly_rate rate) n = Ok mp ->
     exists total details,
       mortgage_calculator loan_amount rate years "equal_installment" =
       Ok (Installment mp total details) /\
       numbered n details) /\
  (is_zero (of_Z n) = false ->
   exists first last total details,
     mortgage_calculator loan_amount rate years "equal_principal" =
     Ok (Principal first last total details) /\
     numbered n details).
Proof.
  intros n Hfit. split.
  - intros mp Hmp. do 2 eexists. split.
    + apply installment_call; eassumption.
    + apply numbered_of_months, installment_entries_months.
  - intros Hnz.
    destruct (principal_call loan_amount rate years Hfit Hnz)
      as [first [last [total E]]].
    exists first, last, total. eexists. split; [exact E|].
    apply numbered_of_months, principal_entries_months.
Qed.

Lemma schedule_numbered_witness :
  (exists mp total details,
     float_call 1300000 0.026 1 "equal_installment" =
     Ok (Installment mp total details) /\
     numbered 12 details) /\
  (exists first last total details,
     float_call 1300000 0.026 1 "equal_principal" =
     Ok (Principal first last total details) /\
     numbered 12 details).
Proof.
  destruct (schedule_numbered (T:=float) 1300000%float 0.026%float 1)
    as [I P]; [reflexivity|].
  split.
  - eexists. eapply I. vm_compute. reflexivity.
  - apply P. reflexivity.
Defined.

(** In exact arithmetic, every valid input returns, under both methods, a
    schedule of exactly [years * 12] lines numbered 1, 2, ... in order. *)
Theorem exact_schedule_numbered (P rate : Q) (years : Z) (method : string) :
  (0 < years)%Z -> 0 <= rate ->
  method = "equal_installment"%string \/ method = "equal_principal"%string ->
  exists s,
    mortgage_calculator P rate years method = Ok s /\
    numbered (years * 12) (details_of s).
Proof.
  intros Hy Hrate [-> | ->].
  - destruct (exact_installment_call P rate years Hy Hrate)
      as [mp [_ [E _]]].
    eexists. split; [exact E|]. cbn [details_of].
    apply numbered_of_months. rewrite range_months.
    apply installment_entries_months.
  - destruct (exact_principal_call P rate years Hy)
      as [first [last [total [E _]]]].
    eexists. split; [exact E|]. cbn [details_of].
    apply numbered_of_months. rewrite range_months.
    apply principal_entries_months.
Qed.

Lemma exact_schedule_numbered_witness :
  exists s,
    mortgage_calculator 1300000 (26 # 1000) 20 "equal_principal" = Ok s /\
    numbered 240 (details_of s).
Proof.
  apply (exact_schedule_numbered 1300000 (26 # 1000) 20);
    [reflexivity | discriminate | right; reflexivity].
Defined.

(** In any arithmetic, the last balance of an equal-installment schedule
    over a positive term is the balance that the recurrence of lines 48-50
    reaches after [n] months, set to zero when, and only when, it is within
    0.01 of zero (lines 53-56). *)
Theorem installment_balance_adjusted {T : Type} `{PyNumLaws T}
    (loan_amount rate : T) (years : Z) (mp : T) :
  let n := (years * 12)%Z in
  let r := monthly_rate rate in
  (0 < years)%Z ->
  fits n = true ->
  installment_payment loan_amount r n = Ok mp ->
  exists total details e,
    mortgage_calculator loan_amount rate years "equal_installment" =
    Ok (Installment mp total details) /\
    last_entry details = Some e /\
    balance e =
    fold_residual (balance_after mp r loan_amount (Z.to_nat n)).
Proof.
  intros n r Hy Hfit Hmp.
  pose proof (installment_call loan_amount rate years mp Hfit Hmp) as E.
  fold n r in E. rewrite range_months in E.
  destruct (Z.to_nat n) as [|k] eqn:Ek; [lia|].
  destruct (last_entry_of_final
              (installment_entries n mp r loan_amount (range_from 1 (S k)))
              loan_amount _
              (installment_entries_not_nil n mp r loan_amount k 1)
              (installment_last_balance n mp r _ loan_amount)) as [e [L B]].
  do 2 eexists. exists e. split; [exact E|]. split; [exact L|].
  rewrite B. apply installment_final_range. lia.
Qed.

Lemma installment_balance_adjusted_witness :
  exists mp total details e,
    float_call 1300000 0.026 1 "equal_installment" =
    Ok (Installment mp total details) /\
    last_entry details = Some e /\
    balance e =
    fold_residual
      (balance_after mp (monthly_rate 0.026%float) 1300000%float 12).
Proof.
  eexists.
  apply (installment_balance_adjusted (T:=float) 1300000%float 0.026%float 1);
    [reflexivity | reflexivity | vm_compute; reflexivity].
Defined.

(** In any arithmetic, as soon as the number of months is not zero as a
    number, the equal-principal call returns a schedule whose every line has
    the principal portion [loan_amount / total_months] of line 65. *)
Theorem equal_principal_portions {T : Type} `{PyNumLaws T}
    (loan_amount rate : T) (years : Z) :
  let n := (years * 12)%Z in
  fits n = true ->
  is_zero (of_Z n) = false ->
  exists first last total details,
    mortgage_calculator loan_amount rate years "equal_principal" =
    Ok (Principal first last total details) /\
    Forall (fun e => principal e = true_div loan_amount (of_Z n)) details.
Proof.
  intros n Hfit Hnz.
  destruct (principal_call loan_amount rate years Hfit Hnz)
    as [first [last [total E]]].
  exists first, last, total. eexists. split; [exact E|].
  apply principal_entries_principal.
Qed.

Lemma equal_principal_portions_witness :
  exists first last total details,
    float_call 1300000 0.026 20 "equal_principal" =
    Ok (Principal first last total details) /\
    Forall (fun e => principal e = (1300000 / 240)%float) details.
Proof.
  destruct (equal_principal_portions (T:=float) 1300000%float 0.026%float 20)
    as [first [last [total [details [E F]]]]]; [reflexivity .. |].
  exists first, last, total, details. split; [exact E | exact F].
Defined.

(** In any arithmetic, when the monthly rate is zero and the number of
    months is not zero as a number, the equal-installment call returns the
    monthly payment [loan_amount / total_months] of line 37, and that
    payment times the number of months as the total. *)
Theorem zero_rate_payment {T : Type} `{PyNumLaws T}
    (loan_amount rate : T) (years : Z) :
  let n := (years * 12)%Z in
  let mp := true_div loan_amount (of_Z n) in
  is_zero (monthly_rate rate) = true ->
  fits n = true ->
  is_zero (of_Z n) = false ->
  exists details,
    mortgage_calculator loan_amount rate years "equal_installment" =
    Ok (Installment mp (mul mp (of_Z n)) details).
Proof.
  intros n mp Hr Hfit Hnz. eexists.
  apply installment_call; [exact Hfit|].
  unfold installment_payment, of_int, div. fold n.
  now rewrite Hr, Hfit; cbn [bind]; rewrite Hnz.
Qed.

Lemma zero_rate_payment_witness :
  exists details,
    float_call 1300000 0 20 "equal_installment" =
    Ok (Installment (1300000 / 240)%float (1300000 / 240 * 240)%float
          details).
Proof.
  destruct (zero_rate_payment (T:=float) 1300000%float 0%float 20)
    as [details E]; [reflexivity .. |].
  exists details. exact E.
Defined.

(** On binary64, [1.0 ** n] is 1.0 for every exponent that converts,
    whatever the C library. *)
Lemma float_pow_one (libm_pow : float -> float -> float) (n : Z) :
  float_fits n = true -> float_pow libm_pow 1 n = Ok 1%float.
Proof.
  intros Hfit. unfold float_pow. rewrite Hfit. cbn [negb].
  destruct (Z_of_float (float_of_Z n) =? 0)%Z; reflexivity.
Qed.

(** On binary64, whatever the C library's [pow], every rate whose monthly
    value is not zero but is absorbed in [1 + r] makes the equal-installment
    call raise [ZeroDivisionError], whatever the amount and the term: line
    36 lets the rate through, and the denominator of line 40 is
    [1.0 ** n - 1 = 0.0]. *)
Theorem absorbed_rate_raises (libm_pow : float -> float -> float)
    (loan_amount rate : float) (years : Z) :
  float_fits (years * 12) = true ->
  is_zero (monthly_rate rate) = false ->
  add (of_Z 1) (monthly_rate rate) = 1%float ->
  float_call_with libm_pow loan_amount rate years "equal_installment" =
  Raise ZeroDivisionError.
Proof.
  intros Hfit Hr Hone.
  unfold float_call_with, mortgage_calculator, mortgage_calculator_on.
  rewrite (@monthly_rate_ok _ _ (float_laws_with libm_pow)). cbn [bind].
  unfold installment_payment, monthly_rate in *.
  cbn [is_zero add of_Z true_div pow float_num float_num_with] in *.
  rewrite Hr, Hone, (float_pow_one _ _ Hfit). reflexivity.
Qed.

Lemma absorbed_rate_raises_witness :
  float_call 250000 1e-15 30 "equal_installment" = Raise ZeroDivisionError.
Proof.
  apply (absorbed_rate_raises rounded_pow); reflexivity.
Defined.

(** ** The figures of the equal-principal call *)

Section SummaryFacts.

Context {T : Type} `{PyNumLaws T}.

(** The variables of the equal-principal loop after the months [months]. *)
Lemma principal_loop_state (n : Z) (mp r : T) (months : list Z) :
  forall (st : principal_state T) (ds : list (entry T)),
    fst (principal_loop (fun l e => l ++ [e]) n mp r (st, ds) months) =
    fold_left (fun st m => snd (principal_month n mp r st m)) months st.
Proof.
  unfold principal_loop.
  induction months as [|m rest IH]; intros st ds; [reflexivity|].
  cbn [fold_left fst snd].
  destruct (principal_month n mp r st m) as [e st']. cbn [snd].
  apply IH.
Qed.

Lemma principal_state_balance (n : Z) (mp r : T) (months : list Z) :
  forall st,
    st_balance (fold_left (fun st m => snd (principal_month n mp r st m))
                  months st) =
    principal_final mp (st_balance st) months.
Proof.
  induction months as [|m rest IH]; intros st; [reflexivity|].
  cbn [fold_left principal_final]. rewrite IH. reflexivity.
Qed.

(** [total_payment] is the running sum of the payments. *)
Lemma principal_state_total (n : Z) (mp r : T) (months : list Z) :
  forall st,
    st_total (fold_left (fun st m => snd (principal_month n mp r st m))
                months st) =
    fold_left add
      (map payment (principal_entries mp r (st_balance st) months))
      (st_total st).
Proof.
  induction months as [|m rest IH]; intros st; [reflexivity|].
  cbn [fold_left principal_entries map payment]. rewrite IH. reflexivity.
Qed.

(** [first_month_payment] is set in month 1 and in no other month. *)
Lemma principal_state_first_kept (n : Z) (mp r : T) (months : list Z) :
  Forall (fun m => m <> 1%Z) months ->
  forall st,
    st_first (fold_left (fun st m => snd (principal_month n mp r st m))
                months st) =
    st_first st.
Proof.
  induction 1 as [|m rest Hm _ IH]; intros st; [reflexivity|].
  cbn [fold_left]. rewrite IH. cbn [principal_month snd st_first].
  apply Z.eqb_neq in Hm. now rewrite Hm.
Qed.

Lemma range_from_above (k : nat) :
  forall a b, (b < a)%Z -> Forall (fun m => m <> b) (range_from a k).
Proof.
  induction k as [|k IH]; intros a b Hab; constructor; [lia|].
  apply IH. lia.
Qed.

(** [last_month_payment] is set in month [n], the last of the loop. *)
Lemma principal_state_last (n : Z) (mp r : T) (k : nat) :
  forall a st,
    (a + Z.of_nat k = n)%Z ->
    st_last (fold_left (fun st m => snd (principal_month n mp r st m))
               (range_from a (S k)) st) =
    Some (add mp (mul (principal_final mp (st_balance st) (range_from a k))
                    r)).
Proof.
  induction k as [|k IH]; intros a st Ha.
  - assert (a = n) by lia. subst a.
    cbn [range_from fold_left principal_month snd st_last principal_final].
    now rewrite Z.eqb_refl.
  - change (range_from a (S (S k))) with (a :: range_from (a + 1) (S k)).
    cbn [fold_left]. rewrite IH by lia. reflexivity.
Qed.

End SummaryFacts.

Section SummaryCall.

Context {T : Type} `{PyNumLaws T}.

(** The last line of the equal-principal schedule. *)
Lemma principal_last_line (mp r : T) (k : nat) :
  forall (a : Z) (b : T),
    let b' := principal_final mp b (range_from a k) in
    last_entry (principal_entries mp r b (range_from a (S k))) =
    Some (mkEntry (a + Z.of_nat k) (add mp (mul b' r)) mp (mul b' r)
            (sub b' mp)).
Proof.
  induction k as [|k IH]; intros a b b'.
  - subst b'. cbn [range_from principal_entries principal_final].
    unfold last_entry. cbn [rev app]. now rewrite Z.add_0_r.
  - change (range_from a (S (S k))) with (a :: range_from (a + 1) (S k)).
    cbn [principal_entries].
    rewrite last_entry_cons by apply principal_entries_not_nil.
    rewrite IH. subst b'. cbn [range_from principal_final].
    do 2 f_equal. lia.
Qed.

(** The equal-principal call, with the variables the loop leaves. *)
Lemma principal_call_state (loan_amount rate : T) (years : Z) :
  let n := (years * 12)%Z in
  let mp := true_div loan_amount (of_Z n) in
  let r := monthly_rate rate in
  let st :=
    fold_left (fun st m => snd (principal_month n mp r st m))
      (range 1 (n + 1)) (mkState loan_amount None None (of_Z 0)) in
  fits n = true ->
  is_zero (of_Z n) = false ->
  mortgage_calculator loan_amount rate years "equal_principal" =
  Ok (Principal (st_first st) (st_last st) (st_total st)
        (principal_entries mp r loan_amount (range 1 (n + 1)))).
Proof.
  intros n mp r st Hfit Hnz.
  unfold mortgage_calculator, mortgage_calculator_on.
  rewrite monthly_rate_ok. simpl.
  unfold of_int, div. fold n. rewrite Hfit. simpl. rewrite Hnz. simpl.
  match goal with
  | |- context [principal_loop ?f ?a ?b ?c (?st0, ?ds) ?ms] =>
      pose proof (principal_loop_details a b c ms st0 ds) as D;
      pose proof (principal_loop_state a b c ms st0 ds) as S;
      destruct (principal_loop f a b c (st0, ds) ms) as [st' ds']
  end.
  cbn [fst snd st_balance app] in D, S. subst ds' st'. reflexivity.
Qed.

End SummaryCall.

(** In any arithmetic, over a positive term whose number of months
    converts to a non-zero number, the figures that the equal-principal
    call returns beside the schedule are those of the schedule:
    [first_month_payment] is the payment of its first line,
    [last_month_payment] the payment of its last line, and [total_payment]
    the sum of the payments of its lines, added one after the other to 0
    in the order of the months. *)
Theorem equal_principal_summary {T : Type} `{PyNumLaws T}
    (loan_amount rate : T) (years : Z) :
  let n := (years * 12)%Z in
  (0 < years)%Z ->
  fits n = true ->
  is_zero (of_Z n) = false ->
  exists details e1 en,
    mortgage_calculator loan_amount rate years "equal_principal" =
    Ok (Principal (Some (payment e1)) (Some (payment en))
          (fold_left add (map payment details) (of_Z 0)) details) /\
    numbered n details /\
    nth_error details 0 = Some e1 /\
    last_entry details = Some en.
Proof.
  intros n Hy Hfit Hnz.
  pose proof (principal_call_state loan_amount rate years Hfit Hnz) as E.
  fold n in E.
  set (mp := true_div loan_amount (of_Z n)) in *.
  set (r := monthly_rate rate) in *.
  assert (Hnum : numbered n
            (principal_entries mp r loan_amount (range 1 (n + 1))))
    by apply numbered_of_months, principal_entries_months.
  rewrite range_months in E, Hnum.
  destruct (Z.to_nat n) as [|k] eqn:Ek; [lia|].
  rewrite principal_state_total, principal_state_last in E by lia.
  cbn [st_balance st_total] in E.
  change (range_from 1 (S k)) with (1 :: range_from (1 + 1) k)%Z in E at 1.
  cbn [fold_left] in E.
  rewrite principal_state_first_kept in E by (apply range_from_above; lia).
  cbn [principal_month snd st_first Z.eqb Pos.eqb] in E.
  eexists. eexists. eexists. split; [|split; [exact Hnum|split]].
  2: { cbn [range_from principal_entries nth_error]. reflexivity. }
  2: { apply principal_last_line. }
  exact E.
Qed.

Lemma equal_principal_summary_witness :
  exists details e1 en,
    float_call 1300000 0.026 1 "equal_principal" =
    Ok (Principal (Some (payment e1)) (Some (payment en))
          (fold_left add (map payment details) (of_Z 0)) details) /\
    numbered 12 details /\
    nth_error details 0 = Some e1 /\
    last_entry details = Some en.
Proof.
  apply (equal_principal_summary (T:=float) 1300000%float 0.026%float 1);
    reflexivity.
Defined.

(** ** The printed table *)

Section ReportFacts.

Local Open Scope Z_scope.

Lemma getitem_in_range {A : Type} (l : list A) (i : Z) :
  0 <= i < Z.of_nat (List.length l) ->
  getitem l i = nth_error l (Z.to_nat i).
Proof.
  intros Hi. unfold getitem.
  destruct (Z.leb_spec 0 i); [|lia].
  destruct (Z.ltb_spec i (Z.of_nat (List.length l))); [reflexivity | lia].
Qed.

Lemma skipn_nth_error {A : Type} (l : list A) :
  forall i x, nth_error l i = Some x -> skipn i l = x :: skipn (S i) l.
Proof.
  induction l as [|y l IH]; intros [|i] x Hx; simpl in *; try discriminate.
  - now inversion Hx.
  - now apply IH.
Qed.

(** The rows at the indices [a, a + 1, ...] of the schedule are printed in
    order, and no index is refused. *)
Lemma print_rows_range (details : list (entry float)) (n : nat) :
  forall (a : Z) (out : stdout),
    0 <= a -> a + Z.of_nat n <= Z.of_nat (List.length details) ->
    print_rows details (range_from a n) out =
    ((out ++ map row_text (firstn n (skipn (Z.to_nat a) details)))%list,
     true).
Proof.
  induction n as [|n IH]; intros a out Ha Hn.
  - simpl. now rewrite app_nil_r.
  - cbn [range_from print_rows].
    rewrite getitem_in_range by lia.
    destruct (nth_error details (Z.to_nat a)) as [e|] eqn:E.
    + rewrite IH by lia.
      rewrite (skipn_nth_error _ _ _ E). cbn [firstn map].
      replace (Z.to_nat (a + 1)) with (S (Z.to_nat a)) by lia.
      rewrite <- app_assoc. reflexivity.
    + apply nth_error_None in E. lia.
Qed.

(** The same for [range(a, b)], which is empty when [b <= a], whatever the
    bounds are then. *)
Lemma print_rows_within (details : list (entry float)) (a b : Z)
    (out : stdout) :
  (a < b -> 0 <= a /\ b <= Z.of_nat (List.length details)) ->
  print_rows details (range a b) out =
  ((out ++ map row_text
             (firstn (Z.to_nat (b - a)) (skipn (Z.to_nat a) details)))%list,
   true).
Proof.
  intros Hab. unfold range.
  destruct (Z.lt_ge_cases a b) as [Hlt|Hge].
  - apply print_rows_range; lia.
  - replace (Z.to_nat (b - a)) with O by lia. simpl. now rewrite app_nil_r.
Qed.

(** What the call prints, whatever its arguments: it always returns. *)
Lemma print_payment_schedule_lines (details : list (entry float)) (k : Z) :
  let total := Z.of_nat (List.length details) in
  print_payment_schedule details k =
  ((table_head ++
    map row_text (firstn (Z.to_nat (Z.min k total)) details) ++
    (if 2 * k <? total then ["..."%string] else []) ++
    (if k <? total then
       map row_text
         (firstn (Z.to_nat (total - Z.max k (total - k)))
            (skipn (Z.to_nat (Z.max k (total - k))) details))
     else []) ++
    [rule_text])%list, true).
Proof.
  intros total. unfold print_payment_schedule. fold table_head. fold total.
  rewrite print_rows_within by (unfold total; lia).
  cbn [negb]. rewrite Z.sub_0_r. change (Z.to_nat 0) with O. cbn [skipn].
  destruct (k <? total) eqn:Ek.
  - apply Z.ltb_lt in Ek.
    rewrite print_rows_within by (unfold total in *; lia).
    cbn [negb]. destruct (2 * k <? total);
      rewrite <- ?app_assoc; reflexivity.
  - cbn [negb]. destruct (2 * k <? total);
      rewrite <- ?app_assoc; reflexivity.
Qed.

End ReportFacts.

Local Open Scope Z_scope.

(** When the schedule has at most [2 * num_months_to_show] lines, the call
    prints every line of it once, in order, and no ellipsis. *)
Theorem print_whole_schedule (details : list (entry float)) (k : Z) :
  Z.of_nat (List.length details) <= 2 * k ->
  print_payment_schedule details k =
  ((table_head ++ map row_text details ++ [rule_text])%list, true).
Proof.
  intros Hk. rewrite print_payment_schedule_lines.
  set (total := Z.of_nat (List.length details)) in *.
  destruct (Z.ltb_spec (2 * k) total) as [|_]; [lia|].
  f_equal. f_equal. cbn [app].
  destruct (Z.ltb_spec k total) as [Hlt|Hge].
  - rewrite Z.min_l, Z.max_l by lia.
    rewrite (firstn_all2 (n := Z.to_nat (total - k)))
      by (rewrite length_skipn; unfold total; lia).
    rewrite app_assoc, <- map_app, firstn_skipn. reflexivity.
  - rewrite Z.min_r by lia.
    rewrite firstn_all2 by (unfold total; lia). reflexivity.
Qed.

Lemma print_whole_schedule_witness :
  exists first last total details,
    float_call 1300000 0.026 1 "equal_principal" =
    Ok (Principal first last total details) /\
    print_payment_schedule details (1 * 12) =
    ((table_head ++ map row_text details ++ [rule_text])%list, true).
Proof.
  do 4 eexists. split; [vm_compute; reflexivity|].
  apply print_whole_schedule. vm_compute. discriminate.
Defined.

(** When the schedule has more than [2 * num_months_to_show] lines, the
    call prints its first [num_months_to_show] lines, an ellipsis, and its
    last [num_months_to_show] lines. *)
Theorem print_abridged_schedule (details : list (entry float)) (k : Z) :
  0 <= k ->
  2 * k < Z.of_nat (List.length details) ->
  print_payment_schedule details k =
  ((table_head ++
    map row_text (firstn (Z.to_nat k) details) ++ ["..."%string] ++
    map row_text (skipn (List.length details - Z.to_nat k) details) ++
    [rule_text])%list, true).
Proof.
  intros H0 Hk. rewrite print_payment_schedule_lines.
  set (total := Z.of_nat (List.length details)) in *.
  destruct (Z.ltb_spec (2 * k) total) as [_|]; [|lia].
  destruct (Z.ltb_spec k total) as [_|]; [|lia].
  rewrite Z.min_l, Z.max_r by lia.
  replace (Z.to_nat (total - k))
    with (List.length details - Z.to_nat k)%nat by (unfold total; lia).
  replace (Z.to_nat (total - (total - k))) with (Z.to_nat k) by lia.
  rewrite (firstn_all2 (n := Z.to_nat k)
             (skipn (List.length details - Z.to_nat k) details))
    by (rewrite length_skipn; unfold total in *; lia).
  reflexivity.
Qed.

Lemma print_abridged_schedule_witness :
  exists first last total details,
    float_call 1300000 0.026 1 "equal_principal" =
    Ok (Principal first last total details) /\
    print_payment_schedule details 5 =
    ((table_head ++
      map row_text (firstn (Z.to_nat 5) details) ++ ["..."%string] ++
      map row_text (skipn (List.length details - Z.to_nat 5) details) ++
      [rule_text])%list, true).
Proof.
  do 4 eexists. split; [vm_compute; reflexivity|].
  apply (print_abridged_schedule _ 5); vm_compute; [discriminate|reflexivity].
Defined.

(** Whatever the schedule and the number of lines asked for, negative
    numbers included, the call indexes the schedule within its bounds: it
    returns, and never raises [IndexError].  With a number of lines that is
    zero or negative it prints no line of the schedule at all: the head of
    the table, an ellipsis unless the schedule is empty and the number is
    zero, and the closing rule. *)
Theorem print_never_out_of_range (details : list (entry float)) (k : Z) :
  snd (print_payment_schedule details k) = true /\
  (k <= 0 ->
   fst (print_payment_schedule details k) =
   (table_head ++
    (if 2 * k <? Z.of_nat (List.length details) then ["..."%string] else []) ++
    [rule_text])%list).
Proof.
  rewrite print_payment_schedule_lines. split; [reflexivity|].
  intros Hk. cbn [fst].
  set (total := Z.of_nat (List.length details)) in *.
  replace (Z.to_nat (Z.min k total)) with O by lia. cbn [firstn map app].
  destruct (Z.ltb_spec k total) as [Hlt|Hge]; [|reflexivity].
  rewrite Z.max_r by lia.
  replace (Z.to_nat (total - (total - k))) with O by lia.
  reflexivity.
Qed.


(** ** The CSV text *)

Section CsvFacts.

Local Open Scope string_scope.

Lemma has_char_app (c : ascii) (a b : string) :
  has_char c (a ++ b) = has_char c a || has_char c b.
Proof.
  induction a as [|x a IH]; simpl; [reflexivity|].
  now rewrite IH, orb_assoc.
Qed.

Lemma needs_quote_app (a b : string) :
  needs_quote (a ++ b) = needs_quote a || needs_quote b.
Proof.
  induction a as [|x a IH]; simpl; [reflexivity|].
  now rewrite IH, orb_assoc.
Qed.

Lemma plain_has_no_special (s : string) (c : ascii) :
  needs_quote s = false -> is_special c = true -> has_char c s = false.
Proof.
  intros Hs Hc. induction s as [|a s IH]; [reflexivity|].
  simpl in *. apply orb_false_iff in Hs. destruct Hs as [Ha Hs].
  rewrite (IH Hs), orb_false_r.
  destruct (Ascii.eqb_spec a c); [congruence | reflexivity].
Qed.

(** *** Splitting and joining *)

Lemma split_on_plain (sep : ascii) (s : string) :
  has_char sep s = false -> split_on sep s = [s].
Proof.
  induction s as [|c s IH]; intros H; [reflexivity|].
  simpl in *. apply orb_false_iff in H. destruct H as [Hc Hs].
  now rewrite Hc, (IH Hs).
Qed.

Lemma split_on_app (sep : ascii) (a b : string) :
  has_char sep a = false ->
  split_on sep (a ++ String sep b) = a :: split_on sep b.
Proof.
  induction a as [|c a IH]; intros H.
  - simpl. now rewrite Ascii.eqb_refl.
  - simpl in *. apply orb_false_iff in H. destruct H as [Hc Ha].
    now rewrite Hc, (IH Ha).
Qed.

Lemma split_on_concat (sep : ascii) (fields : list string) :
  fields <> [] ->
  Forall (fun f => has_char sep f = false) fields ->
  split_on sep (String.concat (String sep "") fields) = fields.
Proof.
  induction fields as [|f rest IH]; intros Hne Hall; [congruence|].
  inversion Hall as [|? ? Hf Hrest]; subst.
  destruct rest as [|g rest].
  - simpl. now apply split_on_plain.
  - change (String.concat (String sep "") (f :: g :: rest))
      with (f ++ String sep (String.concat (String sep "") (g :: rest))).
    rewrite split_on_app by exact Hf.
    now rewrite IH.
Qed.

Lemma strip_cr_app (s : string) : strip_cr (s ++ String CR "") = s.
Proof.
  induction s as [|c s IH]; [reflexivity|].
  destruct s as [|a s]; [reflexivity|].
  change (strip_cr (String c (String a s) ++ String CR ""))
    with (String c (strip_cr (String a s ++ String CR ""))).
  now rewrite IH.
Qed.

(** *** Decimal texts hold digits, a sign and a point only *)

Lemma uint_text_plain (d : Decimal.uint) :
  needs_quote (NilEmpty.string_of_uint d) = false.
Proof. induction d; simpl; auto. Qed.

Lemma str_of_int_plain (n : Z) : needs_quote (str_of_int n) = false.
Proof.
  unfold str_of_int, NilZero.string_of_int, NilZero.string_of_uint.
  destruct (Z.to_int n) as [d|d]; destruct d; simpl;
    rewrite ?uint_text_plain; reflexivity.
Qed.

Lemma digit_char_plain (d : Z) :
  (0 <= d < 10)%Z -> is_special (digit_char d) = false.
Proof.
  intros H. unfold digit_char.
  assert (Hd : (Z.to_nat d < 10)%nat) by lia.
  destruct (Z.to_nat d) as [|[|[|[|[|[|[|[|[|[|k]]]]]]]]]];
    [reflexivity .. | lia].
Qed.

Lemma two_digits_plain (n : Z) :
  (0 <= n < 100)%Z -> needs_quote (two_digits n) = false.
Proof.
  intros H. unfold two_digits. cbn [needs_quote].
  rewrite !digit_char_plain; [reflexivity | |].
  - apply Z.mod_pos_bound. lia.
  - split; [apply Z.div_pos; lia | apply Z.div_lt_upper_bound; lia].
Qed.

(** The text of an amount never needs quoting, whatever the float. *)
Lemma fixed2_plain (x : float) : needs_quote (fixed2 x) = false.
Proof.
  unfold fixed2. destruct (Prim2SF x) as [s|s| |s m e].
  - destruct s; reflexivity.
  - destruct s; reflexivity.
  - reflexivity.
  - rewrite !needs_quote_app, str_of_int_plain.
    rewrite two_digits_plain by (apply Z.mod_pos_bound; lia).
    destruct s; reflexivity.
Qed.

Lemma csv_fields_plain (e : entry float) :
  Forall (fun f => needs_quote f = false) (csv_fields e).
Proof.
  unfold csv_fields.
  repeat constructor; auto using str_of_int_plain, fixed2_plain.
Qed.

Lemma csv_header_plain : Forall (fun f => needs_quote f = false) csv_header.
Proof. repeat constructor. Qed.

Lemma map_csv_field_plain (fields : list string) :
  Forall (fun f => needs_quote f = false) fields ->
  map csv_field fields = fields.
Proof.
  induction 1 as [|f rest Hf _ IH]; [reflexivity|].
  simpl. unfold csv_field at 1. now rewrite Hf, IH.
Qed.

(** A row of plain fields, two at least, is written as the fields joined by
    commas, and reads back as these fields. *)
Lemma writerow_plain (f g : string) (rest : list string) :
  Forall (fun f => needs_quote f = false) (f :: g :: rest) ->
  writerow (f :: g :: rest) =
  String.concat "," (f :: g :: rest) ++ String CR (String LF "") /\
  split_on "," (String.concat "," (f :: g :: rest)) = f :: g :: rest /\
  has_char LF (String.concat "," (f :: g :: rest)) = false.
Proof.
  intros Hall. split; [|split].
  - unfold writerow. rewrite (map_csv_field_plain _ Hall).
    destruct f; reflexivity.
  - apply split_on_concat; [discriminate|].
    eapply Forall_impl; [|exact Hall].
    intros a Ha. now apply plain_has_no_special.
  - clear - Hall. revert Hall. generalize (f :: g :: rest) as l.
    induction l as [|a l IH]; intros Hall; [reflexivity|].
    inversion Hall as [|? ? Ha Hl]; subst.
    destruct l as [|b l].
    + simpl. now apply plain_has_no_special.
    + change (String.concat "," (a :: b :: l))
        with (a ++ String "," (String.concat "," (b :: l))).
      rewrite has_char_app. cbn [has_char].
      rewrite (plain_has_no_special a LF Ha eq_refl), (IH Hl).
      reflexivity.
Qed.

End CsvFacts.

Section ExportFacts.

Local Open Scope string_scope.

Lemma string_app_assoc (a b c : string) : (a ++ b) ++ c = a ++ (b ++ c).
Proof. induction a as [|x a IH]; simpl; [reflexivity | now rewrite IH]. Qed.

Lemma split_on_not_nil (sep : ascii) (s : string) : split_on sep s <> [].
Proof.
  induction s as [|c s IH]; simpl; [discriminate|].
  destruct (Ascii.eqb c sep); [discriminate|].
  destruct (split_on sep s); discriminate.
Qed.

Lemma csv_read_empty : csv_read "" = [].
Proof. reflexivity. Qed.

(** A row of plain fields, two at least, followed by any text, reads back
    as these fields followed by what the text reads as. *)
Lemma csv_read_row (f g : string) (rest : list string) (text : string) :
  Forall (fun f => needs_quote f = false) (f :: g :: rest) ->
  csv_read (writerow (f :: g :: rest) ++ text) =
  (f :: g :: rest) :: csv_read text.
Proof.
  intros Hall. destruct (writerow_plain f g rest Hall) as [W [S L]].
  rewrite W. set (c := String.concat "," (f :: g :: rest)) in *.
  replace ((c ++ String CR (String LF "")) ++ text)
    with ((c ++ String CR "") ++ String LF text)
    by (rewrite !string_app_assoc; reflexivity).
  unfold csv_read. rewrite split_on_app.
  - destruct (split_on LF text) as [|l ls] eqn:E;
      [now apply split_on_not_nil in E|].
    cbn [removelast map]. destruct ls; cbn [map];
      now rewrite strip_cr_app, S.
  - rewrite has_char_app, L. reflexivity.
Qed.

Lemma written_rows (details : list (entry float)) (tail : list os_event) :
  written (map (fun e => Write (writerow (csv_fields e))) details ++ tail) =
  fold_right (fun e text => writerow (csv_fields e) ++ text)
    (written tail) details.
Proof.
  induction details as [|e rest IH]; [reflexivity|].
  cbn [map app written fold_right]. now rewrite IH.
Qed.

Lemma csv_read_rows (details : list (entry float)) :
  csv_read (fold_right (fun e text => writerow (csv_fields e) ++ text)
              "" details) =
  map csv_fields details.
Proof.
  induction details as [|e rest IH]; [reflexivity|].
  cbn [fold_right map]. unfold csv_fields at 1.
  rewrite csv_read_row by apply csv_fields_plain.
  now rewrite IH.
Qed.

(** A path without a slash has no directory part. *)
Lemma after_last_sep_none (p : string) :
  has_char "/" p = false -> after_last_sep p = O.
Proof.
  induction p as [|c p IH]; intros H; [reflexivity|].
  simpl in *. apply orb_false_iff in H. destruct H as [Hc Hp].
  now rewrite (IH Hp), Hc.
Qed.

Lemma dirname_bare (p : string) : has_char "/" p = false -> dirname p = "".
Proof.
  intros H. unfold dirname. rewrite (after_last_sep_none p H).
  destruct p; reflexivity.
Qed.

End ExportFacts.

Section ExportProperties.

Local Open Scope string_scope.

(** When the directory can be made and the file opened, the export writes
    a text that reads back, line by line and comma by comma, as the header
    followed by one row of five fields for each line of the schedule, in
    order: no field ever needs quoting.  It makes the directory of the
    path before it opens the file, and prints its message last. *)
Theorem export_reads_back (os : os_model) (details : list (entry float))
    (filepath payment_method : string) :
  makedirs_fails os (dirname filepath) = None ->
  open_fails os filepath = None ->
  exists events,
    export_payment_schedule_to_csv os details filepath payment_method =
    ((Makedirs (dirname filepath) :: Open filepath :: events ++
      [Close; Print (export_message payment_method filepath)])%list, None) /\
    List.length events = S (List.length details) /\
    csv_read (written events) = csv_header :: map csv_fields details.
Proof.
  intros Hm Ho. unfold export_payment_schedule_to_csv. rewrite Hm, Ho.
  exists (Write (writerow csv_header) ::
          map (fun e => Write (writerow (csv_fields e))) details).
  split; [|split].
  - cbn [app]. reflexivity.
  - cbn [List.length]. now rewrite length_map.
  - cbn [written].
    rewrite <- (app_nil_r (map _ details)), written_rows. cbn [written].
    unfold csv_header at 1.
    rewrite csv_read_row by apply csv_header_plain.
    now rewrite csv_read_rows.
Qed.


Lemma export_reads_back_witness :
  exists first last total details events,
    float_call 1300000 0.026 1 "equal_principal" =
    Ok (Principal first last total details) /\
    export_payment_schedule_to_csv willing_os details "log/out.csv"
      "equal_principal" =
    ((Makedirs "log" :: Open "log/out.csv" :: events ++
      [Close; Print (export_message "equal_principal" "log/out.csv")])%list,
     None) /\
    List.length events = S (List.length details) /\
    csv_read (written events) = csv_header :: map csv_fields details.
Proof.
  do 4 eexists.
  assert (E : float_call 1300000 0.026 1 "equal_principal" = Ok _)
    by (vm_compute; reflexivity).
  match type of E with
  | _ = Ok (Principal _ _ _ ?d) =>
      destruct (export_reads_back willing_os d "log/out.csv"
                  "equal_principal" eq_refl eq_refl) as [events [X [N R]]]
  end.
  exists events. split; [exact E|]. split; [exact X|]. split; assumption.
Defined.

(** A path without a directory part makes the export fail before it opens
    any file, wherever making the directory [""] fails with
    [FileNotFoundError], as [os.makedirs] does: the export cannot write
    into the current directory under a bare file name. *)
Theorem export_bare_filename (os : os_model) (details : list (entry float))
    (filepath payment_method : string) :
  has_char "/" filepath = false ->
  makedirs_fails os "" = Some FileNotFoundError ->
  export_payment_schedule_to_csv os details filepath payment_method =
  ([Makedirs ""], Some FileNotFoundError).
Proof.
  intros Hp Hm. unfold export_payment_schedule_to_csv.
  rewrite (dirname_bare filepath Hp), Hm. reflexivity.
Qed.


Lemma export_bare_filename_witness :
  export_payment_schedule_to_csv posix_os [] "schedule.csv"
    "equal_installment" =
  ([Makedirs ""], Some FileNotFoundError).
Proof.
  apply export_bare_filename; reflexivity.
Defined.

End ExportProperties.

(** ** The retry loop *)

Section RetryFacts.

Import Http.

Local Open Scope Z_scope.







(** The loop is never cut short, sends [max_retries - attempt] requests at
    most, and sleeps [2 ^ max_retries - 2 ^ (attempt + 1)] seconds at
    most. *)
Lemma retry_loop_bounds (max_retries : Z) (server : Z -> reply)
    (fuel : nat) :
  forall (attempt : Z) (last : option request_exception) (log : list event),
    0 <= attempt ->
    max_retries - attempt <= Z.of_nat fuel ->
    exists o added,
      retry_loop max_retries server fuel attempt last log =
      (o, log ++ added) /\
      o <> OutOfFuel /\
      requests_sent added <= Z.max 0 (max_retries - attempt) /\
      seconds_slept added <=
      Z.max 0 (2 ^ max_retries - 2 ^ (attempt + 1)).
Proof.
  induction fuel as [|fuel IH]; intros attempt last log Ha Hfuel.
  - cbn [retry_loop]. destruct (Z.ltb_spec attempt max_retries); [lia|].
    exists (match last with Some e => Raised e | None => RaisedTypeError end),
      [].
    rewrite app_nil_r. cbn [requests_sent seconds_slept].
    repeat split; [destruct last; discriminate | lia | lia].
  - cbn [retry_loop]. destruct (Z.ltb_spec attempt max_retries) as [Hlt|Hge].
    + assert (Hpow : 2 ^ (attempt + 1) <= 2 ^ max_retries)
        by (apply Z.pow_le_mono_r; lia).
      assert (Hpow2 : 2 ^ (attempt + 1 + 1) = 2 * 2 ^ (attempt + 1)).
      { replace (attempt + 1 + 1) with (Z.succ (attempt + 1)) by lia.
        apply Z.pow_succ_r. lia. }
      assert (Hcaught : forall e,
                exists o added,
                  (let '(again, log0) :=
                     handle max_retries (attempt + 1) e
                       (log ++ [Request (attempt + 1)]) in
                   if again
                   then retry_loop max_retries server fuel (attempt + 1)
                          (Some e) log0
                   else (Raised e, log0)) = (o, log ++ added) /\
                  o <> OutOfFuel /\
                  requests_sent added <= Z.max 0 (max_retries - attempt) /\
                  seconds_slept added <=
                  Z.max 0 (2 ^ max_retries - 2 ^ (attempt + 1))).
      { intros e. unfold handle. destruct (is_client_error e).
        - exists (Raised e), [Request (attempt + 1)].
          cbn [requests_sent seconds_slept].
          repeat split; [discriminate | lia | lia].
        - destruct (Z.ltb_spec (attempt + 1) max_retries) as [Hlt'|Hge'].
          + destruct (IH (attempt + 1) (Some e)
                        ((log ++ [Request (attempt + 1)]) ++
                         [Sleep (2 ^ (attempt + 1))]))
              as [o [added [E [Ho [Hr Hs]]]]]; [lia | lia |].
            assert (Hpow3 : 2 ^ (attempt + 1 + 1) <= 2 ^ max_retries)
              by (apply Z.pow_le_mono_r; lia).
            exists o,
              (Request (attempt + 1) :: Sleep (2 ^ (attempt + 1)) :: added).
            rewrite E, <- !app_assoc. cbn [app requests_sent seconds_slept].
            repeat split; [exact Ho | lia | lia].
          + destruct (IH (attempt + 1) (Some e)
                        (log ++ [Request (attempt + 1)]))
              as [o [added [E [Ho [Hr Hs]]]]]; [lia | lia |].
            exists o, (Request (attempt + 1) :: added).
            rewrite E, <- !app_assoc. cbn [app requests_sent seconds_slept].
            assert (max_retries = attempt + 1) by lia. subst max_retries.
            rewrite Hpow2 in Hs.
            repeat split; [exact Ho | lia | lia]. }
      destruct (server (attempt + 1)) as [s|rs|].
      * destruct (raise_for_status s) as [e|]; [apply Hcaught|].
        exists (Returned s), [Request (attempt + 1)].
        cbn [requests_sent seconds_slept].
        repeat split; [discriminate | lia | lia].
      * apply Hcaught.
      * exists RaisedOther, [Request (attempt + 1)].
        cbn [requests_sent seconds_slept].
        repeat split; [discriminate | lia | lia].
    + exists (match last with Some e => Raised e | None => RaisedTypeError end),
        [].
      rewrite app_nil_r. cbn [requests_sent seconds_slept].
      repeat split; [destruct last; discriminate | lia | lia].
Qed.

End RetryFacts.

Import Http.

Local Open Scope Z_scope.

(** Whatever the server replies, a call of [_make_request] ends, after
    [max_retries] requests at most and less than [2 ^ max_retries] seconds
    of sleep in all. *)
Theorem request_bounded (max_retries : Z) (server : Z -> reply) :
  exists o log,
    _make_request max_retries server = (o, log) /\
    o <> OutOfFuel /\
    requests_sent log <= Z.max 0 max_retries /\
    seconds_slept log <= Z.max 0 (2 ^ max_retries - 2).
Proof.
  destruct (retry_loop_bounds max_retries server (Z.to_nat max_retries)
              0 None []) as [o [added [E [Ho [Hr Hs]]]]]; [lia | lia |].
  exists o, added. unfold _make_request. rewrite E.
  rewrite Z.sub_0_r in Hr. change (2 ^ (0 + 1)) with 2 in Hs.
  repeat split; assumption.
Qed.

(** With [max_retries] zero or negative the call sends no request and
    raises [TypeError]: the loop body never runs, and line 157 raises
    [None]. *)
Theorem no_retries_type_error (max_retries : Z) (server : Z -> reply) :
  max_retries <= 0 ->
  _make_request max_retries server = (RaisedTypeError, []).
Proof.
  intros H. unfold _make_request.
  destruct (Z.to_nat max_retries); cbn [retry_loop];
    destruct (Z.ltb_spec 0 max_retries); (lia || reflexivity).
Qed.

Lemma no_retries_type_error_witness :
  _make_request 0 (fun _ => Response 200) = (RaisedTypeError, []).
Proof. apply no_retries_type_error. lia. Defined.








